(** * sdf: cam profiles and involute gears (src/sdf/cams.go)

    A shallow embedding of the signed-distance profiles of the [sdf]
    package: the flat flank cam ([Cam1]), the three arc cam ([Cam2]), the cam
    designer [MakeCam], the involute helpers, the gear tooth polygon and the
    gear rack.

    Numbers.  A Go [float64] is read as a real number: rounding, overflow
    and signed zeros are not part of the model.  The one non-finite value
    the profiles can store for otherwise ordinary parameters, the NaN vector
    that [Normalize] yields for a zero vector, is kept explicit as [None];
    every comparison against it is false, as in Go. *)

From Stdlib Require Import String.
From stdpp Require Import base list.
From Stdlib Require Import Reals Lra Lia ZArith.

Open Scope R_scope.

(** ** Scalars *)

(** Go's [<], [<=], [>], [>=] on [float64], as booleans. *)
Definition Rlt_b (x y : R) : bool := if Rlt_dec x y then true else false.
Definition Rle_b (x y : R) : bool := if Rle_dec x y then true else false.
Definition Rgt_b (x y : R) : bool := Rlt_b y x.
Definition Rge_b (x y : R) : bool := Rle_b y x.

Infix "<?" := Rlt_b (at level 70, no associativity) : R_scope.
Infix "<=?" := Rle_b (at level 70, no associativity) : R_scope.
Infix ">?" := Rgt_b (at level 70, no associativity) : R_scope.
Infix ">=?" := Rge_b (at level 70, no associativity) : R_scope.

(** A comparison whose right operand may be NaN ([None]). *)
Definition lt_nan (x : R) (o : option R) : bool :=
  match o with Some y => x <? y | None => false end.
Definition gt_nan (x : R) (o : option R) : bool :=
  match o with Some y => x >? y | None => false end.

(** Modelled from the spec: the scalar helpers [Abs] and [Max] of the
    package, which are not in cams.go; absolute value and maximum. *)
Definition Abs (x : R) : R := Rabs x.
Definition Max (x y : R) : R := Rmax x y.

(** [math.Atan2(y, x)]: the angle of the vector (x, y), in (-PI, PI]. *)
Definition Atan2 (y x : R) : R :=
  if 0 <? x then atan (y / x)
  else if x <? 0 then (if 0 <=? y then atan (y / x) + PI else atan (y / x) - PI)
  else if 0 <? y then PI / 2
  else if y <? 0 then - (PI / 2)
  else 0.

(** [math.Floor]. *)
Definition Floor (x : R) : R := IZR (Zfloor x).

(** ** Vectors and boxes *)

Record V2 : Type := mkV2 { X : R; Y : R }.

Record Box2 : Type := mkBox2 { Min : V2; Max_ : V2 }.

(** Modelled from the spec: the 2D vector arithmetic of the package (add,
    subtract, scalar multiply, dot product, length, normalize), which is
    not in cams.go. *)
Definition Add (a b : V2) : V2 := mkV2 (X a + X b) (Y a + Y b).
Definition Sub (a b : V2) : V2 := mkV2 (X a - X b) (Y a - Y b).
Definition MulScalar (a : V2) (k : R) : V2 := mkV2 (X a * k) (Y a * k).
Definition Dot (a b : V2) : R := X a * X b + Y a * Y b.
Definition Length2 (a : V2) : R := X a * X a + Y a * Y a.
Definition Length (a : V2) : R := sqrt (Length2 a).

(** Modelled from the spec: [Normalize] divides a vector by its length.
    For the zero vector Go computes 0/0 in both components; that NaN
    vector is [None] here. *)
Definition Normalize (a : V2) : option V2 :=
  if Req_dec_T (Length a) 0 then None
  else Some (mkV2 (X a / Length a) (Y a / Length a)).

(** ** Cam Type 1: flat flank cam *)

Module Cam1.

Record t : Type := mk {
  distance : R;      (* center to center circle distance *)
  base_radius : R;   (* radius of base circle *)
  nose_radius : R;   (* radius of nose circle *)
  a : V2;            (* lower point on flank line *)
  u : option V2;     (* normalised line vector for flank; None is NaN *)
  l : R;             (* length of flank line *)
  bb : Box2          (* bounding box *)
}.

(** The mirror of a point to nonnegative x. *)
Definition mirror (p : V2) : V2 := mkV2 (Abs (X p)) (Y p).

(** The three distance formulas of [Evaluate]. *)
Definition base_value (s : t) (p0 : V2) : R :=
  Length p0 - base_radius s.
Definition flank_value (s : t) (u0 p0 : V2) : R :=
  Dot (Sub p0 (a s)) (mkV2 (Y u0) (- X u0)).
Definition nose_value (s : t) (p0 : V2) : R :=
  Length (Sub p0 (mkV2 0 (distance s))) - nose_radius s.

(** Return the minimum distance to the cam. *)
Definition Evaluate (s : t) (p : V2) : R :=
  (* we have symmetry about the y-axis *)
  let p0 := mkV2 (Abs (X p)) (Y p) in
  (* vector to first point of flank line *)
  let v := Sub p0 (a s) in
  match u s with
  | Some u0 =>
      (* work out the t-parameter of the projection onto the flank line *)
      let t := Dot v u0 in
      if t <? 0 then Length p0 - base_radius s
      else if t <=? l s then Dot v (mkV2 (Y u0) (- X u0))
      else Length (Sub p0 (mkV2 0 (distance s))) - nose_radius s
  | None =>
      (* t is NaN: [t < 0] and [t <= l] are both false *)
      Length (Sub p0 (mkV2 0 (distance s))) - nose_radius s
  end.

Definition BoundingBox (s : t) : Box2 := bb s.

End Cam1.

(** Create a 2D cam profile from 2 circles and straight line flanks. *)
Definition NewCam1 (distance base_radius nose_radius : R) : Cam1.t :=
  (* work out the flank line *)
  let sin := (base_radius - nose_radius) / distance in
  let cos := sqrt (1 - sin * sin) in
  (* first point on line *)
  let a := MulScalar (mkV2 cos sin) base_radius in
  (* second point on line *)
  let b := Add (MulScalar (mkV2 cos sin) nose_radius) (mkV2 0 distance) in
  (* line information *)
  let u := Sub b a in
  Cam1.mk distance base_radius nose_radius a (Normalize u) (Length u)
    (mkBox2 (mkV2 (- base_radius) (- base_radius))
            (mkV2 base_radius (distance + nose_radius))).

(** ** Cam Type 2: three arc cam *)

Module Cam2.

Record t : Type := mk {
  distance : R;           (* center to center circle distance *)
  base_radius : R;        (* radius of base circle *)
  nose_radius : R;        (* radius of nose circle *)
  flank_radius : R;       (* radius of flank circle *)
  flank_center : V2;      (* center of flank circle *)
  theta_base : option R;  (* base/flank intersection angle wrt flank center *)
  theta_nose : option R;  (* nose/flank intersection angle wrt flank center *)
  bb : Box2               (* bounding box *)
}.

(** Return the minimum distance to the cam. *)
Definition Evaluate (s : t) (p : V2) : R :=
  (* we have symmetry about the y-axis *)
  let p0 := mkV2 (Abs (X p)) (Y p) in
  (* work out the theta angle wrt the flank center *)
  let v := Sub p0 (flank_center s) in
  let t := Atan2 (Y v) (X v) in
  (* work out the minimum distance *)
  if lt_nan t (theta_base s) then Length p0 - base_radius s
  else if gt_nan t (theta_nose s) then
    Length (Sub p0 (mkV2 0 (distance s))) - nose_radius s
  else Length v - flank_radius s.

Definition BoundingBox (s : t) : Box2 := bb s.

End Cam2.

(** Create a 2D cam profile from 2 circles and circular flank arcs. *)
Definition NewCam2 (distance base_radius nose_radius flank_radius : R)
  : Cam2.t :=
  (* work out the center for the flank radius *)
  let r0 := flank_radius - base_radius in
  let r1 := flank_radius - nose_radius in
  let y := ((r0 * r0) - (r1 * r1) + (distance * distance)) / (2 * distance) in
  let x := - sqrt ((r0 * r0) - (y * y)) in
  let flank_center := mkV2 x y in
  (* work out theta for the intersection of flank arc and base radius *)
  let pb := option_map (fun n => MulScalar n flank_radius)
              (Normalize (Sub (mkV2 0 0) flank_center)) in
  let pb := option_map (fun p => Sub p flank_center) pb in
  let theta_base := option_map (fun p => Atan2 (Y p) (X p)) pb in
  (* work out theta for the intersection of flank arc and nose radius *)
  let pn := option_map (fun n => MulScalar n flank_radius)
              (Normalize (Sub (mkV2 0 distance) flank_center)) in
  let pn := option_map (fun p => Sub p flank_center) pn in
  let theta_nose := option_map (fun p => Atan2 (Y p) (X p)) pn in
  Cam2.mk distance base_radius nose_radius flank_radius flank_center
    theta_base theta_nose
    (mkBox2 (mkV2 (- base_radius) (- base_radius))
            (mkV2 base_radius (distance + nose_radius))).

(** ** The cam designer *)

(** The two results of [MakeCam]: the profile (nil is [None]) and the
    error (nil is [None]). *)
Definition error : Type := string.

(** Create a cam profile from design parameters. *)
Definition MakeCam (cam_type : string) (lift duration max_diameter : R)
  : option Cam1.t * option error :=
  (* check the arguments *)
  if max_diameter <=? 0 then (None, Some "max_diameter <= 0"%string)
  else if lift <=? 0 then (None, Some "lift <= 0"%string)
  else if (duration <=? 0) || (duration >=? PI) then
    (None, Some "invalid duration"%string)
  else
    let base_radius := (max_diameter / 2) - lift in
    if base_radius <=? 0 then (None, Some "base_radius <= 0"%string)
    else
      let delta := duration / 2 in
      if String.eqb cam_type "flat_flank" then
        let c := cos delta in
        let nose_radius := base_radius - (lift * c) / (1 - c) in
        if nose_radius <=? 0 then (None, Some "nose_radius <= 0"%string)
        else
          let distance := base_radius + lift - nose_radius in
          (Some (NewCam1 distance base_radius nose_radius), None)
      else if String.eqb cam_type "three_arc" then
        (* TODO in the source: falls through to the final return *)
        (None, None)
      else (None, Some "unknown cam_type"%string).

(** The radii that [MakeCam] derives on the flat flank path. *)
Definition derived_base_radius (lift max_diameter : R) : R :=
  (max_diameter / 2) - lift.

Definition derived_nose_radius (lift duration max_diameter : R) : R :=
  derived_base_radius lift max_diameter
  - (lift * cos (duration / 2)) / (1 - cos (duration / 2)).

Definition derived_distance (lift duration max_diameter : R) : R :=
  derived_base_radius lift max_diameter + lift
  - derived_nose_radius lift duration max_diameter.

(** The argument checks that come before the choice of the cam type. *)
Definition arguments_ok (lift duration max_diameter : R) : Prop :=
  0 < max_diameter /\ 0 < lift /\ 0 < duration < PI
  /\ 0 < derived_base_radius lift max_diameter.

(** ** Involute curve *)

(** return the involute coordinate; r = base radius, theta = involute angle *)
Definition involute (r theta : R) : V2 :=
  let c := cos theta in
  let s := sin theta in
  mkV2 (r * (c + theta * s)) (r * (s - theta * c)).

(** return the involute angle; r = base radius, d = involute radial distance.
    For |d| < |r| the argument of the square root is negative and Go
    returns NaN; the properties below keep to d >= r > 0. *)
Definition involute_angle (r d : R) : R :=
  let x := d / r in
  sqrt (x * x - 1).

(** ** Polygons *)

(** Modelled from the spec: the polygon-distance primitive [NewPolySDF2]
    of the package, which is not in cams.go.  It takes an ordered point
    sequence, read as a closed polygon, and its [Evaluate] is the signed
    distance to the nearest boundary, negative inside the shape: the least
    distance to an edge, with the sign given by the winding number. *)
Module PolySDF2.

Record t : Type := mk { vertex : list V2 }.

(** Consecutive vertices, the last one joined to the first. *)
Definition edges (v : list V2) : list (V2 * V2) :=
  match v with
  | [] => []
  | h :: tl => zip v (tl ++ [h])
  end.

(** Squared distance from [p] to the segment from [a] to [b]. *)
Definition seg_dist2 (p : V2) (e : V2 * V2) : R :=
  let ab := Sub (snd e) (fst e) in
  let ap := Sub p (fst e) in
  let t := Dot ap ab in
  if t <=? 0 then Length2 ap
  else if Length2 ab <=? t then Length2 (Sub p (snd e))
  else Length2 ap - t * t / Length2 ab.

Definition min_dist2 (p : V2) (es : list (V2 * V2)) : R :=
  match es with
  | [] => 0
  | e :: es' => fold_left (fun d e' => Rmin d (seg_dist2 p e')) es' (seg_dist2 p e)
  end.

(** Positive when [p] is to the left of the directed line a -> b. *)
Definition is_left (p : V2) (e : V2 * V2) : R :=
  (X (snd e) - X (fst e)) * (Y p - Y (fst e))
  - (X p - X (fst e)) * (Y (snd e) - Y (fst e)).

(** The contribution of one edge to the winding number of [p]. *)
Definition crossing (p : V2) (e : V2 * V2) : Z :=
  if Y (fst e) <=? Y p then
    (if (Y p <? Y (snd e)) && (0 <? is_left p e) then 1%Z else 0%Z)
  else
    (if (Y (snd e) <=? Y p) && (is_left p e <? 0) then (-1)%Z else 0%Z).

Definition winding (p : V2) (es : list (V2 * V2)) : Z :=
  fold_left (fun w e => (w + crossing p e)%Z) es 0%Z.

Definition Evaluate (s : t) (p : V2) : R :=
  let es := edges (vertex s) in
  let d := sqrt (min_dist2 p es) in
  if (winding p es =? 0)%Z then d else - d.

End PolySDF2.

Definition NewPolySDF2 (v : list V2) : PolySDF2.t := PolySDF2.mk v.

(** ** Involute gear tooth *)

(** Modelled from the spec: [Rotate] and [MulPosition] of the package,
    which are not in cams.go; the rotation of the plane by an angle, given
    by its cosine and sine, applied to a point. *)
Definition Rotate (angle : R) : R * R := (cos angle, sin angle).
Definition MulPosition (m : R * R) (p : V2) : V2 :=
  mkV2 (fst m * X p - snd m * Y p) (snd m * X p + fst m * Y p).

(** The loop of the lower tooth face:
    [for i := 0; i <= facets; i++ { v[i] = ...; angle += dtheta }],
    with [k] iterations left. *)
Fixpoint lower_face (m : R * R) (base_radius dtheta : R)
    (k i : nat) (angle : R) (v : list V2) : list V2 :=
  match k with
  | O => v
  | S k' =>
      lower_face m base_radius dtheta k' (S i) (angle + dtheta)
        (<[i := MulPosition m (involute base_radius angle)]> v)
  end.

(** The loop of the upper tooth face:
    [for i := 0; i <= facets; i++ { p := v[facets-i]; v[facets+1+i] = V2{p.X, -p.Y} }],
    with [k] iterations left.  An index out of range panics in Go; the
    loop bounds keep every index in range, and the model leaves the list
    alone in that case. *)
Fixpoint upper_face (facets : nat) (k i : nat) (v : list V2) : list V2 :=
  match k with
  | O => v
  | S k' =>
      match v !! (facets - i)%nat with
      | Some p => upper_face facets k' (S i) (<[(facets + 1 + i)%nat := mkV2 (X p) (- Y p)]> v)
      | None => v
      end
  end.

(** The vertices handed to [NewPolySDF2] by [InvoluteGearTooth]. *)
Definition InvoluteGearTooth_vertices (number_teeth : Z)
    (gear_module root_radius base_radius outer_radius backlash : R)
    (facets : Z) : list V2 :=
  let pitch_radius := IZR number_teeth * gear_module / 2 in
  (* work out the angular extent of the tooth on the base radius *)
  let pitch_point := involute base_radius (involute_angle base_radius pitch_radius) in
  let face_angle := Atan2 (Y pitch_point) (X pitch_point) in
  let backlash_angle := backlash / (2 * pitch_radius) in
  let center_angle := PI / (2 * IZR number_teeth) + face_angle - backlash_angle in
  (* work out the angles over which the involute will be used *)
  let start_angle := involute_angle base_radius (Max base_radius root_radius) in
  let stop_angle := involute_angle base_radius outer_radius in
  let dtheta := (stop_angle - start_angle) / IZR facets in
  let v := replicate (Z.to_nat (2 * (facets + 1) + 1)) (mkV2 0 0) in
  (* lower tooth face *)
  let m := Rotate (- center_angle) in
  let v := lower_face m base_radius dtheta (Z.to_nat (facets + 1)) 0 start_angle v in
  (* upper tooth face (mirror the lower point) *)
  let v := upper_face (Z.to_nat facets) (Z.to_nat (facets + 1)) 0 v in
  (* add the origin to make the polygon a tooth wedge *)
  <[Z.to_nat (2 * (facets + 1)) := mkV2 0 0]> v.

(** Generate an SDF2 polygon for a single involute tooth. *)
Definition InvoluteGearTooth (number_teeth : Z)
    (gear_module root_radius base_radius outer_radius backlash : R)
    (facets : Z) : PolySDF2.t :=
  NewPolySDF2 (InvoluteGearTooth_vertices number_teeth gear_module root_radius
                 base_radius outer_radius backlash facets).

(** ** Involute gear *)

(** Modelled from the spec: the circle primitive and the combinators of
    the package (finite rotational replication, union, difference), which
    are not in cams.go, kept as the constructors of the profile they build;
    [Rotate2d] is the rotation by an angle and [TAU] is 2 PI. *)
Inductive Profile : Type :=
| PolyProfile (s : PolySDF2.t)
| NewCircleSDF2 (radius : R)
| NewRotateSDF2 (s : Profile) (n : Z) (step : R * R)
| NewUnionSDF2 (s0 s1 : Profile)
| NewDifferenceSDF2 (s0 s1 : Profile).

Definition TAU : R := 2 * PI.
Definition Rotate2d (angle : R) : R * R := (cos angle, sin angle).

(** Generate an SDF2 polygon for an involute gear. *)
Definition InvoluteGear (number_teeth : Z)
    (gear_module pressure_angle backlash clearance ring_width : R)
    (facets : Z) : Profile :=
  (* pitch radius *)
  let pitch_radius := IZR number_teeth * gear_module / 2 in
  (* base circle radius *)
  let base_radius := pitch_radius * cos pressure_angle in
  (* addendum: radial distance from pitch circle to outside circle *)
  let addendum := gear_module * 1 in
  (* dedendum: radial distance from pitch circle to root circle *)
  let dedendum := addendum + clearance in
  let outer_radius := pitch_radius + addendum in
  let root_radius := pitch_radius - dedendum in
  let ring_radius := root_radius - ring_width in
  let tooth := InvoluteGearTooth number_teeth gear_module root_radius
                 base_radius outer_radius backlash facets in
  let gear := NewRotateSDF2 (PolyProfile tooth) number_teeth
                (Rotate2d (TAU / IZR number_teeth)) in
  let root := NewCircleSDF2 root_radius in
  let ring := NewCircleSDF2 ring_radius in
  NewDifferenceSDF2 (NewUnionSDF2 gear root) ring.

(** ** 2D gear rack *)

(** Modelled from the spec: the periodic fold [SawTooth] of the package,
    which is not in cams.go.  It folds x into one period; the rack mirrors
    the folded value to the positive half and documents the result as lying
    in [0, half_pitch), so the period window is the centred one,
    [-period/2, period/2). *)
Definition SawTooth (x period : R) : R :=
  let x := x + period / 2 in
  let t := x / period in
  period * (t - Floor t) - period / 2.

Module GearRack.

Record t : Type := mk {
  tooth : PolySDF2.t;  (* polygon for rack tooth *)
  pitch : R;           (* tooth to tooth pitch *)
  length : R;          (* half the total rack length *)
  bb : Box2            (* bounding box *)
}.

(** The tooth profile distance at the folded point. *)
Definition tooth_value (s : t) (p : V2) : R :=
  PolySDF2.Evaluate (tooth s) (mkV2 (Abs (SawTooth (X p) (pitch s))) (Y p)).

(** Return the minimum distance to the gear rack. *)
Definition Evaluate (s : t) (p : V2) : R :=
  (* map p.X back to the [0,half_pitch) domain *)
  let p0 := mkV2 (Abs (SawTooth (X p) (pitch s))) (Y p) in
  (* get the tooth profile distance *)
  let d0 := PolySDF2.Evaluate (tooth s) p0 in
  (* create a region for the rack length *)
  let d1 := Abs (X p) - length s in
  (* return the intersection *)
  Max d0 d1.

Definition BoundingBox (s : t) : Box2 := bb s.

End GearRack.

(** Create a 2D gear rack. *)
Definition NewGearRack
    (number_teeth gear_module pressure_angle backlash base_height : R)
  : GearRack.t :=
  (* addendum: distance from pitch line to top of tooth *)
  let addendum := gear_module * 1 in
  (* dedendum: distance from pitch line to root of tooth *)
  let dedendum := gear_module * (125 / 100) in
  (* total tooth height *)
  let tooth_height := base_height + addendum + dedendum in
  (* tooth_pitch: tooth to tooth distance along pitch line *)
  let pitch := gear_module * PI in
  (* x size of tooth flank *)
  let dx := (addendum + dedendum) * tan pressure_angle in
  (* 1/2 x size of tooth top *)
  let dxt := ((pitch / 2) - dx) / 2 in
  (* x size of backlash *)
  let bl := backlash / 2 in
  (* create a half tooth profile centered on the y-axis *)
  let tooth := [
    mkV2 pitch 0;
    mkV2 pitch base_height;
    mkV2 (dx + dxt - bl) base_height;
    mkV2 (dxt - bl) tooth_height;
    mkV2 (- pitch) tooth_height;
    mkV2 (- pitch) 0
  ] in
  let length := pitch * number_teeth / 2 in
  GearRack.mk (NewPolySDF2 tooth) pitch length
    (mkBox2 (mkV2 (- length) 0) (mkV2 length tooth_height)).

(** ** The SDF2 interface *)

(** Every profile type answers [Evaluate] and [BoundingBox]. *)
Class SDF2 (A : Type) : Type := {
  sdf_evaluate : A -> V2 -> R;
  sdf_bounding_box : A -> Box2
}.

#[export] Instance Cam1_SDF2 : SDF2 Cam1.t :=
  {| sdf_evaluate := Cam1.Evaluate; sdf_bounding_box := Cam1.BoundingBox |}.
#[export] Instance Cam2_SDF2 : SDF2 Cam2.t :=
  {| sdf_evaluate := Cam2.Evaluate; sdf_bounding_box := Cam2.BoundingBox |}.
#[export] Instance GearRack_SDF2 : SDF2 GearRack.t :=
  {| sdf_evaluate := GearRack.Evaluate; sdf_bounding_box := GearRack.BoundingBox |}.

(** * Properties *)

(** ** Comparisons *)

Lemma Rlt_b_true (x y : R) : (x <? y) = true <-> x < y.
Proof. unfold Rlt_b; destruct (Rlt_dec x y); split; intros; congruence || lra. Qed.

Lemma Rlt_b_false (x y : R) : (x <? y) = false <-> y <= x.
Proof. unfold Rlt_b; destruct (Rlt_dec x y); split; intros; congruence || lra. Qed.

Lemma Rle_b_true (x y : R) : (x <=? y) = true <-> x <= y.
Proof. unfold Rle_b; destruct (Rle_dec x y); split; intros; congruence || lra. Qed.

Lemma Rle_b_false (x y : R) : (x <=? y) = false <-> y < x.
Proof. unfold Rle_b; destruct (Rle_dec x y); split; intros; congruence || lra. Qed.

Lemma Rge_b_true (x y : R) : (x >=? y) = true <-> y <= x.
Proof. apply Rle_b_true. Qed.

Lemma Rge_b_false (x y : R) : (x >=? y) = false <-> x < y.
Proof. apply Rle_b_false. Qed.

(** Decide one comparison of the goal from the hypotheses. *)
Ltac cmp_true e := replace e with true by (symmetry; first
  [ apply Rlt_b_true | apply Rle_b_true | apply Rge_b_true ]; first [lra | nra]).
Ltac cmp_false e := replace e with false by (symmetry; first
  [ apply Rlt_b_false | apply Rle_b_false | apply Rge_b_false ]; first [lra | nra]).

(** Split on one comparison, keeping the fact it decides. *)
Ltac case_cmp e H := destruct e eqn:H;
  [ first [ apply Rlt_b_true in H | apply Rle_b_true in H | apply Rge_b_true in H ]
  | first [ apply Rlt_b_false in H | apply Rle_b_false in H | apply Rge_b_false in H ] ].

Lemma PI_gt_3 : 3 < PI.
Proof. pose proof PI2_3_2; lra. Qed.

(** ** Vectors *)

Lemma Length2_nonneg (a : V2) : 0 <= Length2 a.
Proof. unfold Length2; nra. Qed.

Lemma Length_nonneg (a : V2) : 0 <= Length a.
Proof. apply sqrt_pos. Qed.

Lemma Length_eq (a : V2) (k : R) : 0 <= k -> k * k = Length2 a -> Length a = k.
Proof. intros Hk Hkk; unfold Length; apply sqrt_lem_1; auto using Length2_nonneg. Qed.

Lemma Normalize_Some (a : V2) :
  Length a <> 0 ->
  Normalize a = Some (mkV2 (X a / Length a) (Y a / Length a)).
Proof. intros H; unfold Normalize; destruct (Req_dec_T (Length a) 0); [contradiction | reflexivity]. Qed.

Lemma Normalize_None (a : V2) : Length a = 0 -> Normalize a = None.
Proof. intros H; unfold Normalize; destruct (Req_dec_T (Length a) 0); [reflexivity | contradiction]. Qed.

(** ** Cam1: the flank line *)

Section Cam1_flank.

Variables d rb rn : R.
Hypothesis Hd : 0 < d.
Hypothesis Hsin : Rabs ((rb - rn) / d) <= 1.

Let sn := (rb - rn) / d.
Let cs := sqrt (1 - sn * sn).

Lemma flank_sin_bound : -1 <= sn <= 1.
Proof.
  unfold sn; split.
  - destruct (Rle_dec (-1) ((rb - rn) / d)) as [|n]; [lra|].
    rewrite Rabs_left in Hsin by lra; lra.
  - pose proof (Rle_abs ((rb - rn) / d)); lra.
Qed.

Lemma flank_cos_nonneg : 0 <= cs.
Proof. apply sqrt_pos. Qed.

Lemma flank_unit : cs * cs + sn * sn = 1.
Proof.
  pose proof flank_sin_bound as Hb.
  unfold cs; rewrite sqrt_sqrt by nra; lra.
Qed.

Lemma flank_sin_d : sn * d = rb - rn.
Proof. unfold sn; field; lra. Qed.

Lemma NewCam1_a : Cam1.a (NewCam1 d rb rn) = mkV2 (cs * rb) (sn * rb).
Proof. reflexivity. Qed.

Lemma NewCam1_l : Cam1.l (NewCam1 d rb rn) = d * cs.
Proof.
  pose proof flank_unit as Hu; pose proof flank_cos_nonneg as Hc;
    pose proof flank_sin_d as Hs.
  cbn [NewCam1 Cam1.l]; fold sn; fold cs.
  apply Length_eq; [nra|].
  unfold Length2, Sub, Add, MulScalar; cbn [X Y].
  replace (cs * rn + 0 - cs * rb) with (- (cs * (sn * d))) by (rewrite Hs; ring).
  replace (sn * rn + d - sn * rb) with (d * (1 - sn * sn))
    by (assert (sn * (sn * d) = sn * (rb - rn)) by (rewrite Hs; ring); lra).
  replace (1 - sn * sn) with (cs * cs) by lra.
  replace (- (cs * (sn * d)) * - (cs * (sn * d)) + d * (cs * cs) * (d * (cs * cs)))
    with (d * cs * (d * cs) * (cs * cs + sn * sn)) by ring.
  rewrite Hu; ring.
Qed.

(** A flank of positive length has the unit direction (-sin, cos). *)
Lemma NewCam1_u : 0 < cs -> Cam1.u (NewCam1 d rb rn) = Some (mkV2 (- sn) cs).
Proof.
  intros Hc.
  pose proof flank_unit as Hu; pose proof flank_sin_d as Hs.
  pose proof NewCam1_l as Hl.
  cbn [NewCam1 Cam1.l Cam1.u] in *; fold sn in Hl |- *; fold cs in Hl |- *.
  rewrite Normalize_Some by (rewrite Hl; nra).
  rewrite Hl; f_equal.
  unfold Sub, Add, MulScalar; cbn [X Y].
  f_equal.
  - replace (cs * rn + 0 - cs * rb) with (- (cs * (sn * d))) by (rewrite Hs; ring).
    field; lra.
  - replace (sn * rn + d - sn * rb) with (d * (1 - sn * sn))
    by (assert (sn * (sn * d) = sn * (rb - rn)) by (rewrite Hs; ring); lra).
    replace (1 - sn * sn) with (cs * cs) by lra.
    field; lra.
Qed.

(** A flank of zero length has no direction: [Normalize] yields NaN. *)
Lemma NewCam1_u_degenerate : cs = 0 -> Cam1.u (NewCam1 d rb rn) = None.
Proof.
  intros Hc. pose proof NewCam1_l as Hl.
  cbn [NewCam1 Cam1.l Cam1.u] in *; fold sn in Hl |- *; fold cs in Hl |- *.
  apply Normalize_None; rewrite Hl, Hc; ring.
Qed.

End Cam1_flank.

(** ** Cam1: evaluation *)

Lemma Cam1_Evaluate_cases (s : Cam1.t) (p u0 : V2) :
  Cam1.u s = Some u0 ->
  0 <= Cam1.l s ->
  let p0 := Cam1.mirror p in
  let t := Dot (Sub p0 (Cam1.a s)) u0 in
  (t < 0 -> Cam1.Evaluate s p = Cam1.base_value s p0) /\
  (0 <= t <= Cam1.l s -> Cam1.Evaluate s p = Cam1.flank_value s u0 p0) /\
  (Cam1.l s < t -> Cam1.Evaluate s p = Cam1.nose_value s p0).
Proof.
  intros Hu Hl p0 t.
  unfold Cam1.Evaluate, Cam1.base_value, Cam1.flank_value, Cam1.nose_value.
  rewrite Hu; fold (Cam1.mirror p); fold p0; fold t.
  repeat split; intros Ht.
  - cmp_true (t <? 0); reflexivity.
  - cmp_false (t <? 0); cmp_true (t <=? Cam1.l s); reflexivity.
  - cmp_false (t <? 0); cmp_false (t <=? Cam1.l s); reflexivity.
Qed.

(** With a NaN flank direction every point falls through to the nose
    circle. *)
Lemma Cam1_Evaluate_nan (s : Cam1.t) (p : V2) :
  Cam1.u s = None -> Cam1.Evaluate s p = Cam1.nose_value s (Cam1.mirror p).
Proof. intros Hu; unfold Cam1.Evaluate; rewrite Hu; reflexivity. Qed.

(** A point of the right half plane on the line through the origin with
    direction (c, s) lies at distance c x + s y from the origin. *)
Lemma tangent_point (c s x y : R) :
  0 < c -> c * c + s * s = 1 -> 0 <= x -> - s * x + c * y = 0 ->
  sqrt (x * x + y * y) = c * x + s * y.
Proof.
  intros Hc Hu Hx Ht.
  assert (Hk : (c * x + s * y) * c = x).
  { replace ((c * x + s * y) * c) with (c * c * x + s * (c * y)) by ring.
    replace (c * y) with (s * x) by lra.
    replace (c * c * x + s * (s * x)) with ((c * c + s * s) * x) by ring.
    rewrite Hu; ring. }
  apply sqrt_lem_1.
  - nra.
  - destruct (Rle_dec 0 (c * x + s * y)) as [|n]; [assumption|].
    exfalso; assert (c * x + s * y < 0) by lra; nra.
  - replace ((c * x + s * y) * (c * x + s * y))
      with ((c * c + s * s) * (x * x + y * y) - (- s * x + c * y) * (- s * x + c * y))
      by ring.
    rewrite Hu, Ht; ring.
Qed.

(** C5.  For a cam built by [NewCam1] and a point p, with p0 the mirror
    of p to nonnegative x, v = p0 - a and t = v.u: [Evaluate] returns
    |p0| - base_radius when t < 0, v.(u.y, -u.x) when 0 <= t <= l, and
    |p0 - (0, distance)| - nose_radius when t > l. *)
Theorem Cam1_Evaluate_branches (d rb rn : R) (p u0 : V2) :
  let s := NewCam1 d rb rn in
  let p0 := mkV2 (Abs (X p)) (Y p) in
  let v := Sub p0 (Cam1.a s) in
  let t := Dot v u0 in
  Cam1.u s = Some u0 ->
  (t < 0 -> Cam1.Evaluate s p = Length p0 - Cam1.base_radius s) /\
  (0 <= t <= Cam1.l s ->
   Cam1.Evaluate s p = Dot v (mkV2 (Y u0) (- X u0))) /\
  (Cam1.l s < t ->
   Cam1.Evaluate s p
   = Length (Sub p0 (mkV2 0 (Cam1.distance s))) - Cam1.nose_radius s).
Proof.
  intros s p0 v t Hu.
  apply (Cam1_Evaluate_cases s p u0 Hu).
  apply Length_nonneg.
Qed.

(** C6.  For a cam built by [NewCam1] with d, r_b, r_n > 0 and
    |(r_b - r_n)/d| <= 1, the branch formulas of [Evaluate] agree at the
    branch boundaries: at a mirrored point p0 with t = 0 the base circle
    value equals the flank line value, and at one with t = l the nose
    circle value equals the flank line value. *)
Theorem Cam1_boundary_continuity (d rb rn : R) (p u0 : V2) :
  0 < d -> 0 < rb -> 0 < rn -> Rabs ((rb - rn) / d) <= 1 ->
  let s := NewCam1 d rb rn in
  let p0 := Cam1.mirror p in
  let t := Dot (Sub p0 (Cam1.a s)) u0 in
  Cam1.u s = Some u0 ->
  (t = 0 -> Cam1.base_value s p0 = Cam1.flank_value s u0 p0) /\
  (t = Cam1.l s -> Cam1.nose_value s p0 = Cam1.flank_value s u0 p0).
Proof.
  intros Hd Hrb Hrn Hsin s p0 t Hu.
  pose proof (flank_unit d rb rn Hsin) as Hunit.
  pose proof (flank_sin_d d rb rn Hd) as Hsd.
  pose proof (NewCam1_l d rb rn Hd Hsin) as Hl.
  pose proof (NewCam1_a d rb rn) as Ha.
  pose proof (flank_cos_nonneg d rb rn) as Hc0.
  set (sn := (rb - rn) / d) in *.
  set (cs := sqrt (1 - sn * sn)) in *.
  destruct (Req_dec_T cs 0) as [Hz | Hnz].
  { pose proof (NewCam1_u_degenerate d rb rn Hd Hsin Hz) as Hn.
    fold s in Hn; congruence. }
  assert (Hc : 0 < cs) by lra.
  pose proof (NewCam1_u d rb rn Hd Hsin Hc) as Hu'.
  fold s in Hu', Hl, Ha; fold sn in Hu'; fold cs in Hu'.
  assert (u0 = mkV2 (- sn) cs) by congruence; subst u0.
  assert (Hx : 0 <= X p0) by (apply Rabs_pos).
  set (x := X p0) in *; set (y := Y p0) in *.
  assert (Ht : t = - sn * x + cs * y).
  { unfold t, Dot, Sub; rewrite Ha; cbn [X Y]; fold x; fold y; ring. }
  assert (Hflank : Cam1.flank_value s (mkV2 (- sn) cs) p0 = cs * x + sn * y - rb).
  { unfold Cam1.flank_value, Dot, Sub; rewrite Ha; cbn [X Y]; fold x; fold y.
    replace ((x - cs * rb) * cs + (y - sn * rb) * - - sn)
      with (cs * x + sn * y - rb * (cs * cs + sn * sn)) by ring.
    rewrite Hunit; ring. }
  rewrite Hflank; split; intros Hb.
  - unfold Cam1.base_value, Length, Length2; fold x; fold y.
    cbn [NewCam1 Cam1.base_radius s].
    rewrite (tangent_point cs sn x y) by lra; reflexivity.
  - unfold Cam1.nose_value, Length, Length2, Sub.
    cbn [NewCam1 Cam1.nose_radius Cam1.distance s X Y]; fold x; fold y.
    replace (x - 0) with x by ring.
    rewrite (tangent_point cs sn x (y - d)) by nra.
    lra.
Qed.

(** The cam with distance 2 and both radii 1: its flank is the vertical
    segment from (1, 0) to (1, 2). *)
Lemma NewCam1_2_1_1_u : Cam1.u (NewCam1 2 1 1) = Some (mkV2 0 1).
Proof.
  assert (Hs : (1 - 1) / 2 = 0) by lra.
  assert (Hc : sqrt (1 - (1 - 1) / 2 * ((1 - 1) / 2)) = 1).
  { rewrite Hs; replace (1 - 0 * 0) with 1 by ring; apply sqrt_1. }
  assert (Hsin : Rabs ((1 - 1) / 2) <= 1) by (rewrite Hs, Rabs_R0; lra).
  rewrite (NewCam1_u 2 1 1) by (try rewrite Hc; lra).
  rewrite Hc, Hs; do 2 f_equal; ring.
Qed.

Lemma Cam1_Evaluate_branches_witness :
  let s := NewCam1 2 1 1 in
  let p0 := mkV2 (Abs 3) 0 in
  let v := Sub p0 (Cam1.a s) in
  let t := Dot v (mkV2 0 1) in
  Cam1.u s = Some (mkV2 0 1) /\
  (t < 0 -> Cam1.Evaluate s (mkV2 3 0) = Length p0 - Cam1.base_radius s) /\
  (0 <= t <= Cam1.l s ->
   Cam1.Evaluate s (mkV2 3 0) = Dot v (mkV2 1 (- 0))) /\
  (Cam1.l s < t ->
   Cam1.Evaluate s (mkV2 3 0)
   = Length (Sub p0 (mkV2 0 (Cam1.distance s))) - Cam1.nose_radius s).
Proof.
  split.
  - exact NewCam1_2_1_1_u.
  - exact (Cam1_Evaluate_branches 2 1 1 (mkV2 3 0) (mkV2 0 1) NewCam1_2_1_1_u).
Defined.

Lemma Cam1_boundary_continuity_witness :
  let s := NewCam1 2 1 1 in
  let p0 := Cam1.mirror (mkV2 1 0) in
  Cam1.u s = Some (mkV2 0 1) /\
  Dot (Sub p0 (Cam1.a s)) (mkV2 0 1) = 0 /\
  Cam1.base_value s p0 = Cam1.flank_value s (mkV2 0 1) p0.
Proof.
  assert (Ht : Dot (Sub (Cam1.mirror (mkV2 1 0)) (Cam1.a (NewCam1 2 1 1))) (mkV2 0 1) = 0).
  { unfold Dot, Sub, Cam1.mirror; cbn [NewCam1 Cam1.a MulScalar X Y]; lra. }
  assert (Hsin : Rabs ((1 - 1) / 2) <= 1).
  { replace ((1 - 1) / 2) with 0 by lra; rewrite Rabs_R0; lra. }
  split; [exact NewCam1_2_1_1_u | split; [exact Ht |]].
  apply (Cam1_boundary_continuity 2 1 1 (mkV2 1 0) (mkV2 0 1));
    [lra | lra | lra | exact Hsin | exact NewCam1_2_1_1_u | exact Ht].
Defined.

(** ** The sawtooth fold *)

Lemma Zfloor_succ (t : R) : Zfloor (t + 1) = (Zfloor t + 1)%Z.
Proof.
  apply Zfloor_eq; rewrite plus_IZR.
  pose proof (Zfloor_bound t); lra.
Qed.

Lemma SawTooth_zero_period (x : R) : SawTooth x 0 = 0.
Proof. unfold SawTooth; lra. Qed.

Lemma SawTooth_periodic (x period : R) :
  SawTooth (x + period) period = SawTooth x period.
Proof.
  destruct (Req_dec_T period 0) as [-> | Hp].
  { now rewrite !SawTooth_zero_period. }
  unfold SawTooth, Floor.
  replace ((x + period + period / 2) / period)
    with ((x + period / 2) / period + 1) by (field; assumption).
  rewrite Zfloor_succ, plus_IZR; ring.
Qed.

Lemma SawTooth_abs_even (x period : R) :
  Rabs (SawTooth (- x) period) = Rabs (SawTooth x period).
Proof.
  destruct (Req_dec_T period 0) as [-> | Hp].
  { now rewrite !SawTooth_zero_period. }
  unfold SawTooth, Floor.
  set (t := (x + period / 2) / period).
  replace ((- x + period / 2) / period) with (1 - t)
    by (unfold t; field; assumption).
  clearbody t.
  pose proof (Zfloor_bound t) as Hb.
  destruct (Req_dec_T t (IZR (Zfloor t))) as [He | Hne].
  - (* the fold lands on the left end of the window, on both sides *)
    assert (Hf : Zfloor (1 - t) = (1 - Zfloor t)%Z).
    { apply Zfloor_eq; rewrite minus_IZR; lra. }
    rewrite Hf, minus_IZR; apply f_equal; rewrite <- He; lra.
  - assert (Hf : Zfloor (1 - t) = (- Zfloor t)%Z).
    { apply Zfloor_eq; rewrite opp_IZR; lra. }
    rewrite Hf, opp_IZR, <- Rabs_Ropp; apply f_equal; lra.
Qed.

(** ** Mirror symmetry *)

Lemma Cam1_Evaluate_mirror (s : Cam1.t) (x y : R) :
  Cam1.Evaluate s (mkV2 x y) = Cam1.Evaluate s (mkV2 (- x) y).
Proof. unfold Cam1.Evaluate, Abs; cbn [X Y]; rewrite Rabs_Ropp; reflexivity. Qed.

Lemma Cam2_Evaluate_mirror (s : Cam2.t) (x y : R) :
  Cam2.Evaluate s (mkV2 x y) = Cam2.Evaluate s (mkV2 (- x) y).
Proof. unfold Cam2.Evaluate, Abs; cbn [X Y]; rewrite Rabs_Ropp; reflexivity. Qed.

Lemma GearRack_Evaluate_mirror (s : GearRack.t) (x y : R) :
  GearRack.Evaluate s (mkV2 x y) = GearRack.Evaluate s (mkV2 (- x) y).
Proof.
  unfold GearRack.Evaluate, Abs; cbn [X Y].
  rewrite SawTooth_abs_even, Rabs_Ropp; reflexivity.
Qed.

(** C7.  For every profile built by [NewCam1], [NewCam2] and
    [NewGearRack] and all real x, y, Evaluate((x, y)) equals
    Evaluate((-x, y)). *)
Theorem Evaluate_mirror_symmetry
    (d rb rn rf number_teeth gear_module pressure_angle backlash base_height
       x y : R) :
  Cam1.Evaluate (NewCam1 d rb rn) (mkV2 x y)
  = Cam1.Evaluate (NewCam1 d rb rn) (mkV2 (- x) y)
  /\ Cam2.Evaluate (NewCam2 d rb rn rf) (mkV2 x y)
     = Cam2.Evaluate (NewCam2 d rb rn rf) (mkV2 (- x) y)
  /\ GearRack.Evaluate
       (NewGearRack number_teeth gear_module pressure_angle backlash base_height)
       (mkV2 x y)
     = GearRack.Evaluate
         (NewGearRack number_teeth gear_module pressure_angle backlash base_height)
         (mkV2 (- x) y).
Proof.
  split; [apply Cam1_Evaluate_mirror |].
  split; [apply Cam2_Evaluate_mirror | apply GearRack_Evaluate_mirror].
Qed.

(** ** Involute angle *)

(** C9.  For r > 0 and d >= r, involute_angle(r, d) is sqrt((d/r)^2 - 1);
    in particular involute_angle(r, r) = 0 and involute_angle(r, 2r) is
    sqrt 3. *)
Theorem involute_angle_values (r d : R) :
  0 < r -> r <= d ->
  involute_angle r d = sqrt ((d / r) ^ 2 - 1)
  /\ involute_angle r r = 0
  /\ involute_angle r (2 * r) = sqrt 3.
Proof.
  intros Hr Hd; unfold involute_angle; repeat split.
  - f_equal; ring.
  - replace (r / r * (r / r) - 1) with 0 by (field; lra). apply sqrt_0.
  - f_equal; field; lra.
Qed.

Lemma involute_angle_values_witness :
  involute_angle 2 3 = sqrt ((3 / 2) ^ 2 - 1)
  /\ involute_angle 2 2 = 0
  /\ involute_angle 2 (2 * 2) = sqrt 3.
Proof. apply (involute_angle_values 2 3); lra. Defined.

(** ** The cam designer *)

Lemma cos_half_duration (duration : R) :
  0 < duration < PI -> 0 < cos (duration / 2) < 1.
Proof.
  intros [H0 H1]; split.
  - apply cos_gt_0; lra.
  - rewrite <- cos_0; apply cos_decreasing_1; lra.
Qed.

Lemma MakeCam_flat_flank_ok (lift duration max_diameter : R) :
  arguments_ok lift duration max_diameter ->
  0 < derived_nose_radius lift duration max_diameter ->
  MakeCam "flat_flank" lift duration max_diameter
  = (Some (NewCam1 (derived_distance lift duration max_diameter)
             (derived_base_radius lift max_diameter)
             (derived_nose_radius lift duration max_diameter)), None).
Proof.
  intros (Hm & Hl & Hd & Hb) Hn.
  unfold derived_distance, derived_nose_radius, derived_base_radius in *.
  unfold MakeCam.
  cmp_false (max_diameter <=? 0); cmp_false (lift <=? 0).
  cmp_false (duration <=? 0); cmp_false (duration >=? PI); cbn [orb].
  cmp_false (max_diameter / 2 - lift <=? 0).
  cbn [String.eqb Ascii.eqb Bool.eqb].
  cmp_false (max_diameter / 2 - lift
             - lift * cos (duration / 2) / (1 - cos (duration / 2)) <=? 0).
  reflexivity.
Qed.

Lemma MakeCam_flat_flank_nose (lift duration max_diameter : R) :
  arguments_ok lift duration max_diameter ->
  derived_nose_radius lift duration max_diameter <= 0 ->
  MakeCam "flat_flank" lift duration max_diameter
  = (None, Some "nose_radius <= 0"%string).
Proof.
  intros (Hm & Hl & Hd & Hb) Hn.
  unfold derived_nose_radius, derived_base_radius in *.
  unfold MakeCam.
  cmp_false (max_diameter <=? 0); cmp_false (lift <=? 0).
  cmp_false (duration <=? 0); cmp_false (duration >=? PI); cbn [orb].
  cmp_false (max_diameter / 2 - lift <=? 0).
  cbn [String.eqb Ascii.eqb Bool.eqb].
  cmp_true (max_diameter / 2 - lift
            - lift * cos (duration / 2) / (1 - cos (duration / 2)) <=? 0).
  reflexivity.
Qed.

(** C10.  On every input on which the flat flank path of [MakeCam]
    succeeds, the triple (distance, base_radius, nose_radius) handed to
    [NewCam1] has (base_radius - nose_radius) / distance = cos(duration/2),
    which lies strictly between 0 and 1; so the tangency condition
    |(r_b - r_n)/d| <= 1 of [NewCam1] holds and the argument of its square
    root is not negative. *)
Theorem MakeCam_flat_flank_tangency (lift duration max_diameter : R) :
  0 < max_diameter -> 0 < lift -> 0 < duration < PI ->
  0 < derived_base_radius lift max_diameter ->
  0 < derived_nose_radius lift duration max_diameter ->
  let distance := derived_distance lift duration max_diameter in
  let base_radius := derived_base_radius lift max_diameter in
  let nose_radius := derived_nose_radius lift duration max_diameter in
  let sin := (base_radius - nose_radius) / distance in
  MakeCam "flat_flank" lift duration max_diameter
  = (Some (NewCam1 distance base_radius nose_radius), None)
  /\ sin = cos (duration / 2)
  /\ 0 < sin < 1
  /\ Rabs sin <= 1
  /\ 0 <= 1 - sin * sin.
Proof.
  intros Hm Hl Hd Hb Hn distance base_radius nose_radius sn.
  pose proof (cos_half_duration duration Hd) as Hc.
  assert (Hs : sn = cos (duration / 2)).
  { unfold sn, distance, nose_radius, base_radius,
      derived_distance, derived_nose_radius.
    set (c := cos (duration / 2)) in *.
    set (b := derived_base_radius lift max_diameter).
    field; lra. }
  split; [apply MakeCam_flat_flank_ok; unfold arguments_ok; auto |].
  split; [exact Hs |].
  rewrite Hs; repeat split; try lra.
  - apply Rabs_le; lra.
  - nra.
Qed.

Lemma sqrt3_bounds : 17 / 10 < sqrt 3 < 18 / 10.
Proof.
  assert (H3 : sqrt 3 * sqrt 3 = 3) by (apply sqrt_sqrt; lra).
  pose proof (sqrt_pos 3) as Hp.
  split.
  - destruct (Rlt_dec (17 / 10) (sqrt 3)) as [|n]; [assumption | exfalso; nra].
  - destruct (Rlt_dec (sqrt 3) (18 / 10)) as [|n]; [assumption | exfalso; nra].
Qed.

Lemma cos_PI3_half : cos (PI / 3 / 2) = sqrt 3 / 2.
Proof. replace (PI / 3 / 2) with (PI / 6) by field. apply cos_PI6. Qed.

Lemma Rdiv_eq_intro (x y z : R) : y <> 0 -> x = z * y -> x / y = z.
Proof. intros Hy ->; field; assumption. Qed.

(** The nose radius derived for lift 5, duration PI/3 and maximum
    diameter 40. *)
Lemma derived_nose_radius_5_PI3_40 :
  derived_nose_radius 5 (PI / 3) 40 = - (10 * sqrt 3).
Proof.
  pose proof sqrt3_bounds as Hb.
  assert (H3 : sqrt 3 * sqrt 3 = 3) by (apply sqrt_sqrt; lra).
  unfold derived_nose_radius, derived_base_radius; rewrite cos_PI3_half.
  rewrite (Rdiv_eq_intro (5 * (sqrt 3 / 2)) (1 - sqrt 3 / 2) (15 + 10 * sqrt 3));
    [lra | lra | nra].
Qed.

Lemma arguments_ok_5_PI3_40 : arguments_ok 5 (PI / 3) 40.
Proof.
  pose proof PI_RGT_0.
  unfold arguments_ok, derived_base_radius; repeat split; lra.
Qed.

Lemma MakeCam_5_PI3_40 :
  MakeCam "flat_flank" 5 (PI / 3) 40 = (None, Some "nose_radius <= 0"%string).
Proof.
  apply MakeCam_flat_flank_nose; [exact arguments_ok_5_PI3_40 |].
  rewrite derived_nose_radius_5_PI3_40.
  pose proof sqrt3_bounds; lra.
Qed.

(** C1, as the code has it.  For flat_flank, lift 5, duration PI/3 and
    maximum diameter 40 the derived base radius is 15, but the derived
    nose radius is -10 sqrt 3, which is negative: [MakeCam] returns no
    profile and the error "nose_radius <= 0". *)
Theorem MakeCam_example_fails :
  derived_base_radius 5 40 = 15
  /\ derived_nose_radius 5 (PI / 3) 40 = - (10 * sqrt 3)
  /\ derived_nose_radius 5 (PI / 3) 40 < 0
  /\ MakeCam "flat_flank" 5 (PI / 3) 40
     = (None, Some "nose_radius <= 0"%string).
Proof.
  split; [unfold derived_base_radius; lra |].
  split; [exact derived_nose_radius_5_PI3_40 |].
  split; [| exact MakeCam_5_PI3_40].
  rewrite derived_nose_radius_5_PI3_40; pose proof sqrt3_bounds; lra.
Qed.

(** C1 as stated fails: the call returns no profile, it returns an
    error, and the derived nose radius is not positive. *)
Lemma MakeCam_example_counterexample :
  fst (MakeCam "flat_flank" 5 (PI / 3) 40) = None
  /\ snd (MakeCam "flat_flank" 5 (PI / 3) 40) <> None
  /\ ~ (0 < derived_nose_radius 5 (PI / 3) 40).
Proof.
  rewrite MakeCam_5_PI3_40, derived_nose_radius_5_PI3_40.
  pose proof sqrt3_bounds.
  repeat split; [discriminate | lra].
Qed.

Lemma MakeCam_flat_flank_tangency_witness :
  let distance := derived_distance 1 (PI / 3) 20 in
  let base_radius := derived_base_radius 1 20 in
  let nose_radius := derived_nose_radius 1 (PI / 3) 20 in
  let sin := (base_radius - nose_radius) / distance in
  MakeCam "flat_flank" 1 (PI / 3) 20
  = (Some (NewCam1 distance base_radius nose_radius), None)
  /\ sin = cos (PI / 3 / 2)
  /\ 0 < sin < 1
  /\ Rabs sin <= 1
  /\ 0 <= 1 - sin * sin.
Proof.
  assert (Hpi : 0 < PI / 3 < PI) by (pose proof PI_RGT_0; lra).
  assert (Hb : 0 < derived_base_radius 1 20) by (unfold derived_base_radius; lra).
  assert (Hn : 0 < derived_nose_radius 1 (PI / 3) 20).
  { pose proof sqrt3_bounds as Hs.
    unfold derived_nose_radius, derived_base_radius; rewrite cos_PI3_half.
    assert (Hi : 0 < / (1 - sqrt 3 / 2)) by (apply Rinv_0_lt_compat; lra).
    assert (Hm : (1 - sqrt 3 / 2) * / (1 - sqrt 3 / 2) = 1) by (apply Rinv_r; lra).
    unfold Rdiv at 2. nra. }
  apply (MakeCam_flat_flank_tangency 1 (PI / 3) 20); [lra | lra | exact Hpi | exact Hb | exact Hn].
Defined.

(** Every call of [MakeCam] takes exactly one of its eight exits. *)
Lemma MakeCam_cases (cam_type : string) (lift duration max_diameter : R) :
  let r := MakeCam cam_type lift duration max_diameter in
  let base_radius := derived_base_radius lift max_diameter in
  let nose_radius := derived_nose_radius lift duration max_diameter in
  let ok := arguments_ok lift duration max_diameter in
  (max_diameter <= 0 /\ r = (None, Some "max_diameter <= 0"%string))
  \/ (0 < max_diameter /\ lift <= 0 /\ r = (None, Some "lift <= 0"%string))
  \/ (0 < max_diameter /\ 0 < lift /\ (duration <= 0 \/ PI <= duration)
      /\ r = (None, Some "invalid duration"%string))
  \/ (0 < max_diameter /\ 0 < lift /\ 0 < duration < PI /\ base_radius <= 0
      /\ r = (None, Some "base_radius <= 0"%string))
  \/ (ok /\ cam_type = "flat_flank"%string /\ nose_radius <= 0
      /\ r = (None, Some "nose_radius <= 0"%string))
  \/ (ok /\ cam_type = "flat_flank"%string /\ 0 < nose_radius
      /\ r = (Some (NewCam1 (derived_distance lift duration max_diameter)
                      base_radius nose_radius), None))
  \/ (ok /\ cam_type = "three_arc"%string /\ r = (None, None))
  \/ (ok /\ cam_type <> "flat_flank"%string /\ cam_type <> "three_arc"%string
      /\ r = (None, Some "unknown cam_type"%string)).
Proof.
  intros r base_radius nose_radius ok.
  unfold r, MakeCam.
  case_cmp (max_diameter <=? 0) Hm; [left; auto | right].
  case_cmp (lift <=? 0) Hl; [left; auto | right].
  case_cmp (duration <=? 0) Hd0; cbn [orb]; [left; auto |].
  case_cmp (duration >=? PI) Hd1; [left; auto | right].
  fold (derived_base_radius lift max_diameter); fold base_radius.
  case_cmp (base_radius <=? 0) Hb; [left; repeat split; auto | right].
  assert (Hok : ok) by (unfold ok, arguments_ok; auto).
  destruct (String.eqb cam_type "flat_flank") eqn:Hff.
  - apply String.eqb_eq in Hff.
    change (base_radius - lift * cos (duration / 2) / (1 - cos (duration / 2)))
      with nose_radius.
    change (base_radius + lift - nose_radius)
      with (derived_distance lift duration max_diameter).
    case_cmp (nose_radius <=? 0) Hn; [left; auto | right; left; auto].
  - apply String.eqb_neq in Hff; right; right.
    destruct (String.eqb cam_type "three_arc") eqn:Hta.
    + apply String.eqb_eq in Hta; left; auto.
    + apply String.eqb_neq in Hta; right; auto.
Qed.

Lemma arguments_ok_1_1_10 : arguments_ok 1 1 10.
Proof.
  pose proof PI_gt_3.
  unfold arguments_ok, derived_base_radius; repeat split; lra.
Qed.

Lemma MakeCam_three_arc (lift duration max_diameter : R) :
  arguments_ok lift duration max_diameter ->
  MakeCam "three_arc" lift duration max_diameter = (None, None).
Proof.
  intros Hok.
  destruct (MakeCam_cases "three_arc" lift duration max_diameter)
    as [H|[H|[H|[H|[H|[H|[H|H]]]]]]];
    unfold arguments_ok in Hok; try (exfalso; intuition (lra || discriminate || congruence)).
  tauto.
Qed.

(** The checked exits of [MakeCam]: when it returns an error, when it
    returns a profile, and the message of each check. *)
Lemma MakeCam_exits (cam_type : string) (lift duration max_diameter : R) :
  let r := MakeCam cam_type lift duration max_diameter in
  let base_radius := derived_base_radius lift max_diameter in
  let nose_radius := derived_nose_radius lift duration max_diameter in
  let ok := arguments_ok lift duration max_diameter in
  ((exists msg, r = (None, Some msg))
   <-> (max_diameter <= 0 \/ lift <= 0 \/ duration <= 0 \/ PI <= duration
        \/ base_radius <= 0
        \/ (cam_type = "flat_flank"%string /\ nose_radius <= 0)
        \/ (cam_type <> "flat_flank"%string /\ cam_type <> "three_arc"%string)))
  /\ ((exists s, r = (Some s, None))
      <-> (ok /\ cam_type = "flat_flank"%string /\ 0 < nose_radius))
  /\ (max_diameter <= 0 -> r = (None, Some "max_diameter <= 0"%string))
  /\ (0 < max_diameter -> lift <= 0 -> r = (None, Some "lift <= 0"%string))
  /\ (0 < max_diameter -> 0 < lift -> duration <= 0 \/ PI <= duration ->
      r = (None, Some "invalid duration"%string))
  /\ (0 < max_diameter -> 0 < lift -> 0 < duration < PI -> base_radius <= 0 ->
      r = (None, Some "base_radius <= 0"%string))
  /\ (ok -> cam_type = "flat_flank"%string -> nose_radius <= 0 ->
      r = (None, Some "nose_radius <= 0"%string))
  /\ (ok -> cam_type <> "flat_flank"%string -> cam_type <> "three_arc"%string ->
      r = (None, Some "unknown cam_type"%string)).
Proof.
  intros r base_radius nose_radius ok.
  pose proof (MakeCam_cases cam_type lift duration max_diameter) as Hc.
  cbv zeta in Hc; fold r base_radius nose_radius ok in Hc.
  assert (Hok : ok <-> 0 < max_diameter /\ 0 < lift /\ 0 < duration < PI
                       /\ 0 < base_radius) by reflexivity.
  assert (Hne : "flat_flank"%string <> "three_arc"%string) by discriminate.
  clearbody r base_radius nose_radius ok.
  destruct Hc as [H|[H|[H|[H|[H|[H|[H|H]]]]]]];
    repeat match goal with H : _ /\ _ |- _ => destruct H end;
    subst r; rewrite ?Hok in *;
    repeat match goal with H : _ /\ _ |- _ => destruct H end;
    repeat split; intros;
    repeat match goal with
      | H : exists _, _ |- _ => destruct H
      | H : _ /\ _ |- _ => destruct H
      end;
    try subst cam_type;
    try discriminate; try congruence; try lra; eauto;
    try (intuition (lra || congruence)).
Qed.

(** C3, evaluated on the code.  The claim asks for an error when
    three_arc is requested.  The source lists three_arc as a cam type, but
    its branch is an empty TODO that falls through to [return nil, nil]:
    for cam type three_arc, lift 1, duration 1 and maximum diameter 10,
    and whenever the argument checks pass, [MakeCam] returns neither a
    profile nor an error.  Every other way out is as the claim says: for
    a cam type other than three_arc, [MakeCam] returns an error, and no
    profile, exactly when max_diameter <= 0, lift <= 0, duration is
    outside (0, PI), the derived base radius is <= 0, the derived nose
    radius is <= 0 on the flat_flank path, or the cam type is not
    recognised, with a message that names the first check that fails; and
    it returns a profile and no error on every other input. *)
Theorem MakeCam_three_arc_diverges :
  (arguments_ok 1 1 10
   /\ MakeCam "three_arc" 1 1 10 = (None, None)
   /\ ~ (exists msg, snd (MakeCam "three_arc" 1 1 10) = Some msg))
  /\ (forall lift duration max_diameter : R,
        arguments_ok lift duration max_diameter ->
        MakeCam "three_arc" lift duration max_diameter = (None, None))
  /\ (forall (cam_type : string) (lift duration max_diameter : R),
        cam_type <> "three_arc"%string ->
        let r := MakeCam cam_type lift duration max_diameter in
        let base_radius := derived_base_radius lift max_diameter in
        let nose_radius := derived_nose_radius lift duration max_diameter in
        let failing :=
          max_diameter <= 0 \/ lift <= 0 \/ duration <= 0 \/ PI <= duration
          \/ base_radius <= 0
          \/ (cam_type = "flat_flank"%string /\ nose_radius <= 0)
          \/ cam_type <> "flat_flank"%string in
        ((exists msg, r = (None, Some msg)) <-> failing)
        /\ ((exists s, r = (Some s, None)) <-> ~ failing)
        /\ (max_diameter <= 0 -> r = (None, Some "max_diameter <= 0"%string))
        /\ (0 < max_diameter -> lift <= 0 ->
            r = (None, Some "lift <= 0"%string))
        /\ (0 < max_diameter -> 0 < lift -> duration <= 0 \/ PI <= duration ->
            r = (None, Some "invalid duration"%string))
        /\ (0 < max_diameter -> 0 < lift -> 0 < duration < PI ->
            base_radius <= 0 -> r = (None, Some "base_radius <= 0"%string))
        /\ (arguments_ok lift duration max_diameter ->
            cam_type = "flat_flank"%string -> nose_radius <= 0 ->
            r = (None, Some "nose_radius <= 0"%string))
        /\ (arguments_ok lift duration max_diameter ->
            cam_type <> "flat_flank"%string ->
            r = (None, Some "unknown cam_type"%string))).
Proof.
  split; [| split].
  - rewrite (MakeCam_three_arc 1 1 10 arguments_ok_1_1_10).
    split; [exact arguments_ok_1_1_10 |].
    split; [reflexivity | intros [? H]; discriminate].
  - exact MakeCam_three_arc.
  - intros cam_type lift duration max_diameter Hta r base_radius nose_radius
      failing.
    destruct (MakeCam_exits cam_type lift duration max_diameter)
      as (Herr & Hprof & M1 & M2 & M3 & M4 & M5 & M6).
    cbv zeta in Herr, Hprof, M1, M2, M3, M4, M5, M6.
    fold r base_radius nose_radius in Herr, Hprof, M1, M2, M3, M4, M5, M6.
    assert (Hf : failing
                 <-> (max_diameter <= 0 \/ lift <= 0 \/ duration <= 0
                      \/ PI <= duration \/ base_radius <= 0
                      \/ (cam_type = "flat_flank"%string /\ nose_radius <= 0)
                      \/ (cam_type <> "flat_flank"%string
                          /\ cam_type <> "three_arc"%string)))
      by (unfold failing; tauto).
    assert (Hnf : ~ failing
                  <-> (arguments_ok lift duration max_diameter
                       /\ cam_type = "flat_flank"%string /\ 0 < nose_radius)).
    { unfold failing, arguments_ok; fold base_radius.
      destruct (string_dec cam_type "flat_flank") as [Hff | Hff]; split.
      - intros Hn. repeat split; try assumption;
          match goal with |- _ < _ =>
            apply Rnot_le_lt; intros ?; apply Hn; tauto end.
      - intros (Hok & _ & Hn) [H|[H|[H|[H|[H|[[_ H]|H]]]]]]; try lra; congruence.
      - intros Hn; exfalso; apply Hn; tauto.
      - intros (_ & Hc & _); congruence. }
    split; [rewrite Hf; exact Herr |].
    split; [rewrite Hnf; exact Hprof |].
    repeat split; try assumption.
    intros Hok Hff; apply M6; assumption.
Qed.

(** ** Cam2: the stored angles *)

Lemma Atan2_pos (y x : R) : 0 < x -> Atan2 y x = atan (y / x).
Proof. intros Hx; unfold Atan2; cmp_true (0 <? x); reflexivity. Qed.

(** The angle of a vector does not change when the vector is stretched. *)
Lemma Atan2_scale (k y x : R) : 0 < k -> Atan2 (k * y) (k * x) = Atan2 y x.
Proof.
  intros Hk; unfold Atan2.
  assert (Hq : x <> 0 -> k * y / (k * x) = y / x) by (intros; field; lra).
  case_cmp (0 <? x) Hx.
  { cmp_true (0 <? k * x); rewrite Hq by lra; reflexivity. }
  cmp_false (0 <? k * x).
  case_cmp (x <? 0) Hx'.
  { cmp_true (k * x <? 0); rewrite Hq by lra.
    case_cmp (0 <=? y) Hy.
    - cmp_true (0 <=? k * y); reflexivity.
    - cmp_false (0 <=? k * y); reflexivity. }
  cmp_false (k * x <? 0).
  case_cmp (0 <? y) Hy.
  { cmp_true (0 <? k * y); reflexivity. }
  cmp_false (0 <? k * y).
  case_cmp (y <? 0) Hy'.
  - cmp_true (k * y <? 0); reflexivity.
  - cmp_false (k * y <? 0); reflexivity.
Qed.

Lemma NewCam2_theta_base (d rb rn rf : R) :
  let c := Cam2.flank_center (NewCam2 d rb rn rf) in
  Cam2.theta_base (NewCam2 d rb rn rf)
  = option_map (fun n => let p := Sub (MulScalar n rf) c in Atan2 (Y p) (X p))
      (Normalize (Sub (mkV2 0 0) c)).
Proof.
  cbn [NewCam2 Cam2.theta_base Cam2.flank_center].
  destruct (Normalize _); reflexivity.
Qed.

Lemma NewCam2_theta_nose (d rb rn rf : R) :
  let c := Cam2.flank_center (NewCam2 d rb rn rf) in
  Cam2.theta_nose (NewCam2 d rb rn rf)
  = option_map (fun n => let p := Sub (MulScalar n rf) c in Atan2 (Y p) (X p))
      (Normalize (Sub (mkV2 0 d) c)).
Proof.
  cbn [NewCam2 Cam2.theta_nose Cam2.flank_center].
  destruct (Normalize _); reflexivity.
Qed.

(** The base angle is the angle of the vector from the flank center to
    the origin, for a positive flank radius and a flank center away from
    the origin. *)
Lemma NewCam2_theta_base_angle (d rb rn rf : R) :
  let c := Cam2.flank_center (NewCam2 d rb rn rf) in
  let w := Sub (mkV2 0 0) c in
  0 < rf -> Length w <> 0 ->
  Cam2.theta_base (NewCam2 d rb rn rf) = Some (Atan2 (Y w) (X w)).
Proof.
  intros c w Hrf Hw.
  rewrite NewCam2_theta_base; fold c; fold w.
  rewrite Normalize_Some by assumption; cbn [option_map]; f_equal.
  pose proof (Length_nonneg w) as Hl.
  set (k := rf / Length w + 1).
  assert (Hk : 0 < k).
  { unfold k; assert (0 < rf / Length w) by (apply Rdiv_lt_0_compat; lra); lra. }
  rewrite <- (Atan2_scale k (Y w) (X w) Hk); f_equal;
    unfold k, w, Sub, MulScalar; cbn [X Y]; fold w; field; assumption.
Qed.

(** The cam with distance 4, base radius 3, nose radius 1 and flank
    radius 6: the flank center is (-3, 0), at distance 3 = 6 - 3 from
    the origin and 5 = 6 - 1 from the nose center (0, 4). *)
Lemma NewCam2_4_3_1_6_center :
  Cam2.flank_center (NewCam2 4 3 1 6) = mkV2 (- 3) 0.
Proof.
  cbn [NewCam2 Cam2.flank_center].
  assert (Hy : ((6 - 3) * (6 - 3) - (6 - 1) * (6 - 1) + 4 * 4) / (2 * 4) = 0) by lra.
  rewrite Hy.
  replace ((6 - 3) * (6 - 3) - 0 * 0) with (3 * 3) by lra.
  rewrite sqrt_square by lra; reflexivity.
Qed.

Lemma NewCam2_4_3_1_6_theta_nose :
  Cam2.theta_nose (NewCam2 4 3 1 6) = Some (atan (8 / 11)).
Proof.
  rewrite NewCam2_theta_nose, NewCam2_4_3_1_6_center; cbv zeta.
  assert (Hl : Length (Sub (mkV2 0 4) (mkV2 (- 3) 0)) = 5).
  { apply Length_eq; [lra |]. unfold Length2, Sub; cbn [X Y]; lra. }
  rewrite Normalize_Some by (rewrite Hl; lra).
  rewrite Hl; cbn [option_map Sub MulScalar X Y]; f_equal.
  rewrite Atan2_pos by lra; f_equal; lra.
Qed.

Lemma NewCam2_4_3_1_6_theta_base :
  Cam2.theta_base (NewCam2 4 3 1 6) = Some 0.
Proof.
  rewrite NewCam2_theta_base_angle.
  - rewrite NewCam2_4_3_1_6_center; cbn [Sub X Y].
    rewrite Atan2_pos by lra.
    replace ((0 - 0) / (0 - - 3)) with 0 by lra.
    rewrite atan_0; reflexivity.
  - lra.
  - rewrite NewCam2_4_3_1_6_center, (Length_eq _ 3); [lra | lra |].
    unfold Length2, Sub; cbn [X Y]; lra.
Qed.

(** What the stored nose angle does to [Evaluate]: the point (1.8, 3.6)
    lies on the flank arc, at angle atan (3/4) about the flank center,
    between the two tangent points; it is taken for a point of the nose
    region and gets the distance sqrt 3.4 - 1 instead of 0. *)
Lemma NewCam2_4_3_1_6_flank_point :
  let s := NewCam2 4 3 1 6 in
  let p := mkV2 (18 / 10) (36 / 10) in
  Length (Sub p (Cam2.flank_center s)) - Cam2.flank_radius s = 0
  /\ Cam2.Evaluate s p = sqrt (34 / 10) - 1
  /\ 0 < Cam2.Evaluate s p.
Proof.
  cbv zeta.
  assert (Hl : Length (Sub (mkV2 (18 / 10) (36 / 10)) (mkV2 (- 3) 0)) = 6).
  { apply Length_eq; [lra |]. unfold Length2, Sub; cbn [X Y]; lra. }
  assert (He : Cam2.Evaluate (NewCam2 4 3 1 6) (mkV2 (18 / 10) (36 / 10))
               = sqrt (34 / 10) - 1).
  { unfold Cam2.Evaluate.
    rewrite NewCam2_4_3_1_6_theta_base, NewCam2_4_3_1_6_theta_nose,
      NewCam2_4_3_1_6_center.
    cbn [X Y NewCam2 Cam2.distance Cam2.nose_radius Cam2.base_radius
           Cam2.flank_radius lt_nan gt_nan].
    unfold Abs; rewrite Rabs_right by lra; cbn [Sub X Y].
    rewrite Atan2_pos by lra.
    replace ((36 / 10 - 0) / (18 / 10 - - 3)) with (3 / 4) by lra.
    assert (H0 : 0 < atan (3 / 4))
      by (rewrite <- atan_0; apply atan_increasing; lra).
    assert (H1 : atan (8 / 11) < atan (3 / 4)) by (apply atan_increasing; lra).
    unfold Rgt_b.
    cmp_false (atan (3 / 4) <? 0); cmp_true (atan (8 / 11) <? atan (3 / 4)).
    unfold Length, Length2, Sub; cbn [X Y]; do 2 f_equal; lra. }
  rewrite NewCam2_4_3_1_6_center, Hl, He; cbn [NewCam2 Cam2.flank_radius].
  repeat split; [lra |].
  assert (1 < sqrt (34 / 10)); [| lra].
  rewrite <- sqrt_1 at 1; apply sqrt_lt_1; lra.
Qed.

(** C2, evaluated on the code.  For distance 4, base radius 3, nose
    radius 1 and flank radius 6 the stored base angle is the angle of the
    vector from the flank center c to the origin, but the stored nose
    angle is atan (8/11), while the angle of the vector from c to the
    nose center (0, 4) is atan (4/3): the source subtracts c once more
    from the point it has just placed on the flank arc, which leaves only
    the direction towards the origin unchanged. *)
Theorem NewCam2_theta_nose_diverges :
  let s := NewCam2 4 3 1 6 in
  let c := Cam2.flank_center s in
  let to_origin := Sub (mkV2 0 0) c in
  let to_nose := Sub (mkV2 0 (Cam2.distance s)) c in
  Cam2.theta_base s = Some (Atan2 (Y to_origin) (X to_origin))
  /\ Cam2.theta_nose s = Some (atan (8 / 11))
  /\ Atan2 (Y to_nose) (X to_nose) = atan (4 / 3)
  /\ Cam2.theta_nose s <> Some (Atan2 (Y to_nose) (X to_nose)).
Proof.
  intros s c to_origin to_nose.
  assert (Hc : c = mkV2 (- 3) 0) by apply NewCam2_4_3_1_6_center.
  assert (Hn : Atan2 (Y to_nose) (X to_nose) = atan (4 / 3)).
  { unfold to_nose; rewrite Hc; cbn [NewCam2 Cam2.distance s Sub X Y].
    rewrite Atan2_pos by lra; f_equal; lra. }
  split; [| split; [apply NewCam2_4_3_1_6_theta_nose | split; [exact Hn |]]].
  - apply NewCam2_theta_base_angle; [lra |].
    fold s; fold c; rewrite Hc.
    rewrite (Length_eq _ 3); [lra | lra |].
    unfold Length2, Sub; cbn [X Y]; lra.
  - unfold s; rewrite NewCam2_4_3_1_6_theta_nose, Hn.
    intros H; injection H as H.
    pose proof (atan_increasing (8 / 11) (4 / 3)); lra.
Qed.

(** ** The gear tooth polygon *)

Lemma lower_face_length (m : R * R) (base_radius dtheta : R) (k i : nat)
    (angle : R) (v : list V2) :
  length (lower_face m base_radius dtheta k i angle v) = length v.
Proof.
  revert i angle v; induction k as [|k IH]; intros i angle v; cbn [lower_face].
  - reflexivity.
  - rewrite IH; apply length_insert.
Qed.

(** The lower face loop writes the rotated involute samples, at angles
    that grow by [dtheta], into the slots from [i] on and leaves the other
    slots alone. *)
Lemma lower_face_spec (m : R * R) (base_radius dtheta : R) (k i : nat)
    (angle : R) (v : list V2) :
  (i + k <= length v)%nat ->
  let r := lower_face m base_radius dtheta k i angle v in
  (forall j, (j < k)%nat ->
     r !! (i + j)%nat
     = Some (MulPosition m (involute base_radius (angle + INR j * dtheta))))
  /\ (forall j, (j < i \/ i + k <= j)%nat -> r !! j = v !! j).
Proof.
  revert i angle v; induction k as [|k IH]; intros i angle v Hlen;
    cbn [lower_face].
  - split; intros; [lia | reflexivity].
  - set (v1 := <[i := MulPosition m (involute base_radius angle)]> v).
    destruct (IH (S i) (angle + dtheta) v1) as [Hnew Hold];
      [unfold v1; rewrite length_insert; lia |].
    split.
    + intros [|j] Hj.
      * rewrite Hold by lia. replace (i + 0)%nat with i by lia.
        unfold v1; rewrite list_lookup_insert_eq by lia.
        do 3 f_equal; cbn [INR]; ring.
      * replace (i + S j)%nat with (S i + j)%nat by lia.
        rewrite Hnew by lia. do 3 f_equal. rewrite S_INR; ring.
    + intros j Hj. rewrite Hold by lia.
      unfold v1; apply list_lookup_insert_ne; lia.
Qed.

(** The upper face loop, started at [i] with [facets + 1 - i] iterations
    left on a slice long enough: it keeps the lower face, leaves the upper
    slots below [i] alone and fills every later upper slot with the mirror
    of its lower vertex. *)
Lemma upper_face_spec (facets k i : nat) (v : list V2) :
  (i + k = facets + 1)%nat ->
  (2 * facets + 2 <= length v)%nat ->
  let r := upper_face facets k i v in
  length r = length v
  /\ (forall j, (j <= facets)%nat -> r !! j = v !! j)
  /\ (forall j, (j < i)%nat -> r !! (facets + 1 + j)%nat = v !! (facets + 1 + j)%nat)
  /\ (forall j, (i <= j <= facets)%nat ->
      exists p, v !! (facets - j)%nat = Some p
                /\ r !! (facets + 1 + j)%nat = Some (mkV2 (X p) (- Y p))).
Proof.
  revert i v; induction k as [|k IH]; intros i v Hik Hlen; cbn [upper_face].
  - repeat split; intros; try reflexivity; lia.
  - destruct (lookup_lt_is_Some_2 v (facets - i)%nat) as [p Hp]; [lia |].
    rewrite Hp.
    set (v1 := <[(facets + 1 + i)%nat := mkV2 (X p) (- Y p)]> v).
    assert (Hlen1 : length v1 = length v) by apply length_insert.
    destruct (IH (S i) v1) as (Hl & Hlow & Hup & Hnew); [lia | lia |].
    repeat split.
    + congruence.
    + intros j Hj. rewrite Hlow by assumption.
      apply list_lookup_insert_ne; lia.
    + intros j Hj. rewrite Hup by lia.
      apply list_lookup_insert_ne; lia.
    + intros j Hj.
      destruct (decide (j = i)) as [-> | Hne].
      * exists p; split; [assumption |].
        rewrite Hup by lia.
        apply list_lookup_insert_eq; lia.
      * destruct (Hnew j) as (q & Hq & Hr); [lia |].
        exists q; split; [| assumption].
        rewrite <- Hq; symmetry; apply list_lookup_insert_ne; lia.
Qed.

(** C8.  For facets >= 1 and any other inputs, the polygon built by
    [InvoluteGearTooth] has exactly 2 (facets + 1) + 1 vertices, its last
    vertex is the origin, and the upper flank vertex at facets + 1 + i is
    the mirror in y of the lower flank vertex at facets - i. *)
Theorem InvoluteGearTooth_polygon (number_teeth : Z)
    (gear_module root_radius base_radius outer_radius backlash : R)
    (facets : Z) :
  (1 <= facets)%Z ->
  let v := PolySDF2.vertex
             (InvoluteGearTooth number_teeth gear_module root_radius
                base_radius outer_radius backlash facets) in
  let n := Z.to_nat facets in
  Z.of_nat (length v) = (2 * (facets + 1) + 1)%Z
  /\ v !! (length v - 1)%nat = Some (mkV2 0 0)
  /\ v !! Z.to_nat (2 * (facets + 1)) = Some (mkV2 0 0)
  /\ (forall i, (i <= n)%nat ->
      exists p, v !! (n - i)%nat = Some p
                /\ v !! (n + 1 + i)%nat = Some (mkV2 (X p) (- Y p))).
Proof.
  intros Hf v n.
  unfold v, InvoluteGearTooth, NewPolySDF2, InvoluteGearTooth_vertices.
  cbn [PolySDF2.vertex].
  set (v0 := replicate _ _).
  set (v1 := lower_face _ _ _ _ _ _ v0).
  assert (Hn1 : Z.to_nat (facets + 1) = (n + 1)%nat) by (unfold n; lia).
  assert (Hlast : Z.to_nat (2 * (facets + 1)) = (2 * n + 2)%nat) by (unfold n; lia).
  assert (Hl1 : length v1 = (2 * n + 3)%nat).
  { unfold v1; rewrite lower_face_length; unfold v0; rewrite length_replicate.
    unfold n; lia. }
  fold n; rewrite Hn1, Hlast.
  destruct (upper_face_spec n (n + 1) 0 v1) as (Hl & Hlow & _ & Hnew); [lia | lia |].
  set (v2 := upper_face n (n + 1) 0 v1) in *.
  assert (Hlen : length (<[(2 * n + 2)%nat := mkV2 0 0]> v2) = (2 * n + 3)%nat)
    by (rewrite length_insert; lia).
  rewrite Hlen; repeat split.
  - unfold n; lia.
  - replace (2 * n + 3 - 1)%nat with (2 * n + 2)%nat by lia.
    apply list_lookup_insert_eq; lia.
  - apply list_lookup_insert_eq; lia.
  - intros i Hi.
    destruct (Hnew i) as (p & Hp & Hr); [lia |].
    exists p; split.
    + rewrite list_lookup_insert_ne by lia.
      rewrite Hlow by lia; assumption.
    + rewrite list_lookup_insert_ne by lia; assumption.
Qed.

Lemma InvoluteGearTooth_polygon_witness :
  let v := PolySDF2.vertex (InvoluteGearTooth 20 2 17 18 22 0 3) in
  Z.of_nat (length v) = 9%Z
  /\ v !! (length v - 1)%nat = Some (mkV2 0 0)
  /\ v !! 8%nat = Some (mkV2 0 0)
  /\ (forall i, (i <= 3)%nat ->
      exists p, v !! (3 - i)%nat = Some p
                /\ v !! (3 + 1 + i)%nat = Some (mkV2 (X p) (- Y p))).
Proof.
  exact (InvoluteGearTooth_polygon 20 2 17 18 22 0 3 ltac:(lia)).
Defined.

(** ** The gear rack *)

Lemma GearRack_tooth_value_periodic (s : GearRack.t) (x y : R) :
  GearRack.tooth_value s (mkV2 (x + GearRack.pitch s) y)
  = GearRack.tooth_value s (mkV2 x y).
Proof.
  unfold GearRack.tooth_value; cbn [X Y].
  rewrite SawTooth_periodic; reflexivity.
Qed.

Lemma GearRack_Evaluate_unfold (s : GearRack.t) (p : V2) :
  GearRack.Evaluate s p
  = Max (GearRack.tooth_value s p) (Abs (X p) - GearRack.length s).
Proof. reflexivity. Qed.

(** C4, as the code has it.  For a gear rack built by [NewGearRack] the
    tooth profile distance d0 is the same at x and at x + pitch, and
    Evaluate(x, y) is the larger of d0 and |x| - half_length; so
    Evaluate(x + pitch, y) equals Evaluate(x, y) whenever d0 is at least
    both |x| - half_length and |x + pitch| - half_length. *)
Theorem GearRack_Evaluate_period
    (number_teeth gear_module pressure_angle backlash base_height x y : R) :
  let s := NewGearRack number_teeth gear_module pressure_angle backlash
             base_height in
  let d0 := GearRack.tooth_value s (mkV2 x y) in
  let x' := x + GearRack.pitch s in
  GearRack.tooth_value s (mkV2 x' y) = d0
  /\ GearRack.Evaluate s (mkV2 x y) = Max d0 (Abs x - GearRack.length s)
  /\ GearRack.Evaluate s (mkV2 x' y) = Max d0 (Abs x' - GearRack.length s)
  /\ (Abs x - GearRack.length s <= d0 ->
      Abs x' - GearRack.length s <= d0 ->
      GearRack.Evaluate s (mkV2 x' y) = GearRack.Evaluate s (mkV2 x y)).
Proof.
  intros s d0 x'.
  assert (Hp : GearRack.tooth_value s (mkV2 x' y) = d0)
    by apply GearRack_tooth_value_periodic.
  rewrite !GearRack_Evaluate_unfold, Hp; cbn [X Y]; fold d0.
  repeat split; intros.
  unfold Max; rewrite !Rmax_left by assumption; reflexivity.
Qed.

(** *** Distances to the edges of a polygon *)

Lemma seg_dist2_vertical (p a b : V2) (c : R) :
  X a = c -> X b = c -> (X p - c) * (X p - c) <= PolySDF2.seg_dist2 p (a, b).
Proof.
  intros Ha Hb; unfold PolySDF2.seg_dist2, Dot, Length2, Sub; cbn [fst snd X Y].
  rewrite Ha, Hb.
  set (h := Y b - Y a); set (w := X p - c); set (k := Y p - Y a).
  replace (c - c) with 0 by ring; clearbody h w k.
  case_cmp (w * 0 + k * h <=? 0) H1; [nra |].
  case_cmp (0 * 0 + h * h <=? w * 0 + k * h) H2;
    [generalize (Y p - Y b); intros z; nra |].
  assert (Hh : h <> 0) by (intros E; subst h; lra).
  replace (w * w + k * k - (w * 0 + k * h) * (w * 0 + k * h) / (0 * 0 + h * h))
    with (w * w) by (field; nra).
  lra.
Qed.

Lemma seg_dist2_horizontal (p a b : V2) (c : R) :
  Y a = c -> Y b = c -> (Y p - c) * (Y p - c) <= PolySDF2.seg_dist2 p (a, b).
Proof.
  intros Ha Hb; unfold PolySDF2.seg_dist2, Dot, Length2, Sub; cbn [fst snd X Y].
  rewrite Ha, Hb.
  set (h := X b - X a); set (w := Y p - c); set (k := X p - X a).
  replace (c - c) with 0 by ring; clearbody h w k.
  case_cmp (k * h + w * 0 <=? 0) H1; [nra |].
  case_cmp (h * h + 0 * 0 <=? k * h + w * 0) H2;
    [generalize (X p - X b); intros z; nra |].
  assert (Hh : h <> 0) by (intros E; subst h; lra).
  replace (k * k + w * w - (k * h + w * 0) * (k * h + w * 0) / (h * h + 0 * 0))
    with (w * w) by (field; nra).
  lra.
Qed.

Lemma min_dist2_lower_bound (p : V2) (es : list (V2 * V2)) (m : R) :
  es <> [] ->
  Forall (fun e => m <= PolySDF2.seg_dist2 p e) es ->
  m <= PolySDF2.min_dist2 p es.
Proof.
  intros Hne Hall; destruct es as [|e es]; [congruence |].
  cbn [PolySDF2.min_dist2].
  apply Forall_cons_1 in Hall as [He Hes]; clear Hne.
  revert He; generalize (PolySDF2.seg_dist2 p e) as d.
  induction Hes as [|e' es' He' _ IH]; intros d Hd; cbn [fold_left].
  - assumption.
  - apply IH; apply Rmin_glb; assumption.
Qed.

(** *** A rack of four teeth

    Module 1, pressure angle 0, no backlash, base height 100: the pitch
    is PI, the half length 2 PI, and the tooth polygon is made of
    horizontal and vertical edges. *)

Lemma rack4_pitch : GearRack.pitch (NewGearRack 4 1 0 0 100) = PI.
Proof. cbn [NewGearRack GearRack.pitch]; ring. Qed.

Lemma rack4_length : GearRack.length (NewGearRack 4 1 0 0 100) = 2 * PI.
Proof. cbn [NewGearRack GearRack.length]; field. Qed.

Lemma rack4_vertices :
  PolySDF2.vertex (GearRack.tooth (NewGearRack 4 1 0 0 100))
  = [ mkV2 PI 0; mkV2 PI 100; mkV2 (PI / 4) 100; mkV2 (PI / 4) (409 / 4);
      mkV2 (- PI) (409 / 4); mkV2 (- PI) 0 ].
Proof.
  cbn [NewGearRack GearRack.tooth NewPolySDF2 PolySDF2.vertex]; rewrite tan_0.
  repeat (apply (f_equal2 cons); [apply (f_equal2 mkV2); lra |]); reflexivity.
Qed.

Lemma rack4_fold : SawTooth (- (19 / 10) * PI) PI = PI / 10.
Proof.
  pose proof PI_RGT_0 as Hpi.
  unfold SawTooth, Floor.
  replace ((- (19 / 10) * PI + PI / 2) / PI) with (- 14 / 10) by (field; lra).
  rewrite (Zfloor_eq (-2) (- 14 / 10)) by lra.
  lra.
Qed.

(** Well inside the base of the tooth, a tenth of a pitch from the axis,
    the nearest edge is more than a tenth of a pitch away. *)
Lemma rack4_tooth_value :
  GearRack.tooth_value (NewGearRack 4 1 0 0 100) (mkV2 (- (19 / 10) * PI) 50)
  < - (PI / 10).
Proof.
  pose proof PI_gt_3 as Hpi3; pose proof PI_4 as Hpi4.
  unfold GearRack.tooth_value; cbn [X Y].
  rewrite rack4_pitch, rack4_fold.
  unfold Abs; rewrite Rabs_right by lra.
  unfold PolySDF2.Evaluate; rewrite rack4_vertices.
  set (q := mkV2 (PI / 10) 50).
  cbn [PolySDF2.edges app zip zip_with].
  set (es := _ :: _).
  assert (Hw : PolySDF2.winding q es = 1%Z).
  { unfold es, PolySDF2.winding; cbn [fold_left].
    unfold PolySDF2.crossing, PolySDF2.is_left, q; cbn [fst snd X Y].
    repeat match goal with
      | |- context [Rle_b ?a ?b] =>
          first [ cmp_true (Rle_b a b) | cmp_false (Rle_b a b) ]
      | |- context [Rlt_b ?a ?b] =>
          first [ cmp_true (Rlt_b a b) | cmp_false (Rlt_b a b) ]
      end.
    reflexivity. }
  rewrite Hw; cbn [Z.eqb].
  assert (Hm : (3 * PI / 20) * (3 * PI / 20) <= PolySDF2.min_dist2 q es).
  { apply min_dist2_lower_bound; [discriminate |].
    unfold es; repeat apply Forall_cons_2; [| | | | | | apply Forall_nil_2].
    - eapply Rle_trans; [| apply (seg_dist2_vertical q _ _ PI); reflexivity].
      unfold q; cbn [X]; nra.
    - eapply Rle_trans; [| apply (seg_dist2_horizontal q _ _ 100); reflexivity].
      unfold q; cbn [Y]; nra.
    - eapply Rle_trans; [| apply (seg_dist2_vertical q _ _ (PI / 4)); reflexivity].
      unfold q; cbn [X]; nra.
    - eapply Rle_trans; [| apply (seg_dist2_horizontal q _ _ (409 / 4)); reflexivity].
      unfold q; cbn [Y]; nra.
    - eapply Rle_trans; [| apply (seg_dist2_vertical q _ _ (- PI)); reflexivity].
      unfold q; cbn [X]; nra.
    - eapply Rle_trans; [| apply (seg_dist2_horizontal q _ _ 0); reflexivity].
      unfold q; cbn [Y]; nra. }
  apply sqrt_le_1_alt in Hm; rewrite sqrt_square in Hm by lra.
  lra.
Qed.

(** C4 as stated fails: on the rack of four teeth, x = -1.9 PI and
    x + pitch = -0.9 PI both lie strictly inside the rack, but at height
    50 the rack length bound decides the value at x and the tooth profile
    decides it at x + pitch. *)
Lemma GearRack_period_counterexample :
  let s := NewGearRack 4 1 0 0 100 in
  let x := - (19 / 10) * PI in
  - GearRack.length s < x < GearRack.length s
  /\ - GearRack.length s < x + GearRack.pitch s < GearRack.length s
  /\ GearRack.Evaluate s (mkV2 x 50) = - (PI / 10)
  /\ GearRack.Evaluate s (mkV2 (x + GearRack.pitch s) 50) < - (PI / 10)
  /\ GearRack.Evaluate s (mkV2 (x + GearRack.pitch s) 50)
     <> GearRack.Evaluate s (mkV2 x 50).
Proof.
  cbv zeta.
  pose proof PI_RGT_0 as Hpi.
  pose proof rack4_tooth_value as Hd0.
  pose proof Hd0 as Hd0'.
  rewrite <- (GearRack_tooth_value_periodic (NewGearRack 4 1 0 0 100)) in Hd0'.
  rewrite !GearRack_Evaluate_unfold; cbn [X].
  set (d0 := GearRack.tooth_value _ (mkV2 (- (19 / 10) * PI) 50)) in *.
  set (d0' := GearRack.tooth_value _ (mkV2 (_ + _) 50)) in *.
  clearbody d0 d0'.
  rewrite rack4_pitch, rack4_length; unfold Abs, Max.
  rewrite (Rabs_left (- (19 / 10) * PI)) by lra.
  rewrite (Rabs_left (- (19 / 10) * PI + PI)) by lra.
  rewrite (Rmax_right d0) by lra.
  assert (Rmax d0' (- (- (19 / 10) * PI + PI) - 2 * PI) < - (PI / 10))
    by (apply Rmax_lub_lt; lra).
  repeat split; lra.
Qed.


(** * Further properties *)

(** ** The involute curve *)

Lemma sin_cos_unit (x : R) : sin x * sin x + cos x * cos x = 1.
Proof. exact (sin2_cos2 x). Qed.

Lemma involute_Length2 (r theta : R) :
  Length2 (involute r theta) = r * r * (1 + theta * theta).
Proof.
  pose proof (sin_cos_unit theta) as Hu.
  unfold Length2, involute; cbn [X Y].
  set (c := cos theta) in *; set (s := sin theta) in *.
  replace (r * (c + theta * s) * (r * (c + theta * s))
           + r * (s - theta * c) * (r * (s - theta * c)))
    with (r * r * ((s * s + c * c) * (1 + theta * theta))) by ring.
  rewrite Hu; ring.
Qed.

Lemma involute_Length (r theta : R) :
  Length (involute r theta) = Rabs r * sqrt (1 + theta * theta).
Proof.
  unfold Length; rewrite involute_Length2.
  rewrite sqrt_mult_alt by nra.
  f_equal; exact (sqrt_Rsqr_abs r).
Qed.

(** X1.  The point of the involute at angle theta lies at distance
    |r| sqrt (1 + theta^2) from the center of the base circle: on the base
    circle at theta = 0, and never inside it. *)
Theorem involute_radial_distance (r theta : R) :
  Length (involute r theta) = Rabs r * sqrt (1 + theta * theta)
  /\ Length (involute r 0) = Rabs r
  /\ Rabs r <= Length (involute r theta).
Proof.
  pose proof (Rabs_pos r) as Hr.
  split; [apply involute_Length |].
  split.
  - rewrite involute_Length.
    replace (1 + 0 * 0) with 1 by ring; rewrite sqrt_1; ring.
  - rewrite involute_Length.
    assert (H1 : 1 <= sqrt (1 + theta * theta)).
    { rewrite <- sqrt_1 at 1; apply sqrt_le_1_alt; nra. }
    nra.
Qed.

(** X2.  [involute_angle] undoes [involute]: for r > 0 and theta >= 0 the
    involute angle of the radial distance of the point at angle theta is
    theta again. *)
Theorem involute_angle_involute (r theta : R) :
  0 < r -> 0 <= theta ->
  involute_angle r (Length (involute r theta)) = theta.
Proof.
  intros Hr Ht.
  rewrite involute_Length, Rabs_pos_eq by lra.
  unfold involute_angle.
  replace (r * sqrt (1 + theta * theta) / r) with (sqrt (1 + theta * theta))
    by (field; lra).
  rewrite sqrt_sqrt by nra.
  replace (1 + theta * theta - 1) with (theta * theta) by ring.
  apply sqrt_square; assumption.
Qed.

Lemma involute_angle_involute_witness :
  involute_angle 2 (Length (involute 2 3)) = 3.
Proof. apply (involute_angle_involute 2 3); lra. Defined.

Lemma involute_angle_sqr (r d : R) :
  0 < r -> r <= d ->
  1 + involute_angle r d * involute_angle r d = d / r * (d / r).
Proof.
  intros Hr Hd; unfold involute_angle.
  assert (H1 : 1 <= d / r).
  { apply Rmult_le_reg_r with r; [assumption |].
    replace (d / r * r) with d by (field; lra); lra. }
  rewrite sqrt_sqrt by nra; ring.
Qed.

Lemma involute_angle_radius (r d : R) :
  0 < r -> r <= d ->
  r * sqrt (1 + involute_angle r d * involute_angle r d) = d.
Proof.
  intros Hr Hd.
  rewrite involute_angle_sqr by assumption.
  assert (H0 : 0 <= d / r)
    by (unfold Rdiv; apply Rmult_le_pos; [lra | left; apply Rinv_0_lt_compat; lra]).
  rewrite sqrt_square by assumption; field; lra.
Qed.

(** X3.  [involute] undoes [involute_angle]: for r > 0 and d >= r the
    point of the involute at the angle involute_angle(r, d) lies at
    distance d from the center. *)
Theorem involute_involute_angle (r d : R) :
  0 < r -> r <= d ->
  Length (involute r (involute_angle r d)) = d.
Proof.
  intros Hr Hd.
  rewrite involute_Length, Rabs_pos_eq by lra.
  apply involute_angle_radius; assumption.
Qed.

Lemma involute_involute_angle_witness :
  Length (involute 2 (involute_angle 2 5)) = 5.
Proof. apply (involute_involute_angle 2 5); lra. Defined.

Lemma involute_angle_lt (r d1 d2 : R) :
  0 < r -> r <= d1 -> d1 < d2 ->
  involute_angle r d1 < involute_angle r d2.
Proof.
  intros Hr H1 H2; unfold involute_angle.
  assert (Ha : 1 <= d1 / r).
  { apply Rmult_le_reg_r with r; [assumption |].
    replace (d1 / r * r) with d1 by (field; lra); lra. }
  assert (Hb : d1 / r < d2 / r).
  { unfold Rdiv; apply Rmult_lt_compat_r; [apply Rinv_0_lt_compat |]; assumption. }
  apply sqrt_lt_1; nra.
Qed.

(** X4.  Over the radii from the base circle outwards the involute angle
    starts at 0 on the base circle and grows strictly with the radius. *)
Theorem involute_angle_monotone (r d1 d2 : R) :
  0 < r -> r <= d1 -> d1 < d2 ->
  involute_angle r r = 0
  /\ 0 <= involute_angle r d1 < involute_angle r d2.
Proof.
  intros Hr H1 H2.
  split; [| split].
  - unfold involute_angle.
    replace (r / r * (r / r) - 1) with 0 by (field; lra). apply sqrt_0.
  - apply sqrt_pos.
  - apply involute_angle_lt; assumption.
Qed.

Lemma involute_angle_monotone_witness :
  involute_angle 2 2 = 0
  /\ 0 <= involute_angle 2 3 < involute_angle 2 4.
Proof. apply (involute_angle_monotone 2 3 4); lra. Defined.

(** ** The flank of the gear tooth *)

Lemma MulPosition_Rotate_Length (angle : R) (p : V2) :
  Length (MulPosition (Rotate angle) p) = Length p.
Proof.
  pose proof (sin_cos_unit angle) as Hu.
  unfold Length; f_equal.
  unfold Length2, MulPosition, Rotate; cbn [fst snd X Y].
  set (c := cos angle) in *; set (s := sin angle) in *.
  replace ((c * X p - s * Y p) * (c * X p - s * Y p)
           + (s * X p + c * Y p) * (s * X p + c * Y p))
    with ((s * s + c * c) * (X p * X p + Y p * Y p)) by ring.
  rewrite Hu; ring.
Qed.

(** The lower face of the tooth: vertex i is the involute point at the
    angle start_angle + i dtheta, turned by one rotation of the plane. *)
Lemma InvoluteGearTooth_lower_face (number_teeth : Z)
    (gear_module root_radius base_radius outer_radius backlash : R)
    (facets : Z) :
  (1 <= facets)%Z ->
  let v := InvoluteGearTooth_vertices number_teeth gear_module root_radius
             base_radius outer_radius backlash facets in
  let start_angle := involute_angle base_radius (Max base_radius root_radius) in
  let stop_angle := involute_angle base_radius outer_radius in
  let dtheta := (stop_angle - start_angle) / IZR facets in
  exists angle : R,
    forall i, (i <= Z.to_nat facets)%nat ->
      v !! i = Some (MulPosition (Rotate angle)
                       (involute base_radius (start_angle + INR i * dtheta))).
Proof.
  intros Hf v start_angle stop_angle dtheta.
  unfold v, InvoluteGearTooth_vertices.
  fold start_angle stop_angle; fold dtheta.
  match goal with |- context [Rotate ?a] => exists a; set (m := Rotate a) end.
  set (n := Z.to_nat facets).
  set (v0 := replicate _ _).
  assert (Hn1 : Z.to_nat (facets + 1) = (n + 1)%nat) by (unfold n; lia).
  assert (Hlast : Z.to_nat (2 * (facets + 1)) = (2 * n + 2)%nat) by (unfold n; lia).
  assert (Hl0 : length v0 = (2 * n + 3)%nat)
    by (unfold v0; rewrite length_replicate; unfold n; lia).
  rewrite Hn1, Hlast.
  destruct (lower_face_spec m base_radius dtheta (n + 1) 0 start_angle v0)
    as [Hnew _]; [lia |].
  set (v1 := lower_face _ _ _ _ _ _ v0) in *.
  assert (Hl1 : length v1 = (2 * n + 3)%nat)
    by (unfold v1; rewrite lower_face_length; exact Hl0).
  destruct (upper_face_spec n (n + 1) 0 v1) as (_ & Hlow & _); [lia | lia |].
  intros i Hi.
  rewrite list_lookup_insert_ne by lia.
  rewrite Hlow by lia.
  exact (Hnew i ltac:(lia)).
Qed.

(** The radial distances of the lower face of the tooth. *)
Lemma InvoluteGearTooth_vertices_radii (number_teeth : Z)
    (gear_module root_radius base_radius outer_radius backlash : R)
    (facets : Z) :
  (1 <= facets)%Z -> 0 < base_radius ->
  base_radius <= IZR number_teeth * gear_module / 2 ->
  Max base_radius root_radius <= outer_radius ->
  let v := InvoluteGearTooth_vertices number_teeth gear_module root_radius
             base_radius outer_radius backlash facets in
  let n := Z.to_nat facets in
  (exists p, v !! 0%nat = Some p /\ Length p = Max base_radius root_radius)
  /\ (exists p, v !! n = Some p /\ Length p = outer_radius)
  /\ (forall i, (i <= n)%nat ->
      exists p, v !! i = Some p
                /\ Max base_radius root_radius <= Length p <= outer_radius).
Proof.
  intros Hf Hb Hpitch Ho v n.
  destruct (InvoluteGearTooth_lower_face number_teeth gear_module root_radius
              base_radius outer_radius backlash facets Hf) as [angle Hv].
  cbv zeta in Hv; fold n in Hv.
  change (InvoluteGearTooth_vertices number_teeth gear_module root_radius
            base_radius outer_radius backlash facets) with v in Hv.
  assert (Hm : base_radius <= Max base_radius root_radius) by apply Rmax_l.
  set (lo := Max base_radius root_radius) in *.
  set (start_angle := involute_angle base_radius lo) in *.
  set (stop_angle := involute_angle base_radius outer_radius) in *.
  assert (Hf' : 1 <= IZR facets) by (apply IZR_le in Hf; exact Hf).
  assert (Hn : INR n = IZR facets)
    by (unfold n; rewrite INR_IZR_INZ, Z2Nat.id by lia; reflexivity).
  assert (Hs0 : 0 <= start_angle) by apply sqrt_pos.
  assert (Hss : start_angle <= stop_angle).
  { destruct (Req_dec_T lo outer_radius) as [-> | Hne]; [unfold stop_angle, start_angle; lra |].
    apply Rlt_le, (involute_angle_lt base_radius lo outer_radius); lra. }
  assert (Hlen : forall theta, Length (MulPosition (Rotate angle) (involute base_radius theta))
                     = base_radius * sqrt (1 + theta * theta)).
  { intros theta. rewrite MulPosition_Rotate_Length, involute_Length.
    rewrite Rabs_pos_eq by lra; reflexivity. }
  assert (Hlo : base_radius * sqrt (1 + start_angle * start_angle) = lo)
    by (apply involute_angle_radius; assumption).
  assert (Hhi : base_radius * sqrt (1 + stop_angle * stop_angle) = outer_radius)
    by (apply involute_angle_radius; lra).
  assert (Hmid : forall i, (i <= n)%nat ->
            start_angle <= start_angle + INR i * ((stop_angle - start_angle) / IZR facets)
            <= stop_angle).
  { intros i Hi.
    assert (Hi0 : 0 <= INR i) by apply pos_INR.
    assert (Hi1 : INR i <= IZR facets) by (rewrite <- Hn; apply le_INR; exact Hi).
    set (q := INR i / IZR facets).
    assert (Hq : 0 <= q <= 1).
    { unfold q; split.
      - unfold Rdiv; apply Rmult_le_pos; [lra | left; apply Rinv_0_lt_compat; lra].
      - apply Rmult_le_reg_r with (IZR facets); [lra |].
        replace (INR i / IZR facets * IZR facets) with (INR i) by (field; lra). lra. }
    replace (INR i * ((stop_angle - start_angle) / IZR facets))
      with (q * (stop_angle - start_angle)) by (unfold q; field; lra).
    nra. }
  assert (Hmono : forall t1 t2, 0 <= t1 <= t2 ->
            base_radius * sqrt (1 + t1 * t1) <= base_radius * sqrt (1 + t2 * t2)).
  { intros t1 t2 Ht. apply Rmult_le_compat_l; [lra |]. apply sqrt_le_1_alt; nra. }
  split; [| split].
  - eexists; split; [apply (Hv 0%nat); lia |].
    rewrite Hlen. cbn [INR]. replace (start_angle + 0 * _) with start_angle by ring.
    exact Hlo.
  - eexists; split; [apply (Hv n); lia |].
    rewrite Hlen, Hn.
    replace (start_angle + IZR facets * ((stop_angle - start_angle) / IZR facets))
      with stop_angle by (field; lra).
    exact Hhi.
  - intros i Hi. eexists; split; [apply (Hv i); exact Hi |].
    rewrite Hlen. destruct (Hmid i Hi) as [H1 H2].
    split; [rewrite <- Hlo at 1 | rewrite <- Hhi at 1]; apply Hmono; lra.
Qed.

(** X5.  For facets >= 1, a positive base radius that is not above the
    pitch radius number_teeth gear_module / 2, and an outer radius not
    below max(base_radius, root_radius), the lower flank of the tooth
    starts at distance max(base_radius, root_radius) from the gear center,
    ends at distance outer_radius, and every vertex of it lies between the
    two.  (Below the base circle the involute angle of the pitch radius,
    and with it the tooth, is not a number in Go.) *)
Theorem InvoluteGearTooth_flank_radii (number_teeth : Z)
    (gear_module root_radius base_radius outer_radius backlash : R)
    (facets : Z) :
  (1 <= facets)%Z -> 0 < base_radius ->
  base_radius <= IZR number_teeth * gear_module / 2 ->
  Max base_radius root_radius <= outer_radius ->
  let v := PolySDF2.vertex
             (InvoluteGearTooth number_teeth gear_module root_radius
                base_radius outer_radius backlash facets) in
  let n := Z.to_nat facets in
  (exists p, v !! 0%nat = Some p /\ Length p = Max base_radius root_radius)
  /\ (exists p, v !! n = Some p /\ Length p = outer_radius)
  /\ (forall i, (i <= n)%nat ->
      exists p, v !! i = Some p
                /\ Max base_radius root_radius <= Length p <= outer_radius).
Proof.
  intros Hf Hb Hpitch Ho v n.
  unfold v, InvoluteGearTooth, NewPolySDF2; cbn [PolySDF2.vertex].
  exact (InvoluteGearTooth_vertices_radii number_teeth gear_module root_radius
           base_radius outer_radius backlash facets Hf Hb Hpitch Ho).
Qed.

Lemma InvoluteGearTooth_flank_radii_witness :
  let v := PolySDF2.vertex (InvoluteGearTooth 20 2 17 18 22 0 3) in
  (exists p, v !! 0%nat = Some p /\ Length p = Max 18 17)
  /\ (exists p, v !! 3%nat = Some p /\ Length p = 22)
  /\ (forall i, (i <= 3)%nat ->
      exists p, v !! i = Some p /\ Max 18 17 <= Length p <= 22).
Proof.
  apply (InvoluteGearTooth_flank_radii 20 2 17 18 22 0 3);
    [lia | lra | lra | unfold Max; apply Rmax_lub; lra].
Defined.

(** ** Cam1: geometry of the flank *)

Lemma Length_components (v : V2) (r : R) :
  Length v <= r -> - r <= X v <= r /\ - r <= Y v <= r.
Proof.
  intros H.
  pose proof (Length_nonneg v) as H0.
  assert (Hs : Length v * Length v = X v * X v + Y v * Y v)
    by (unfold Length; rewrite sqrt_sqrt by apply Length2_nonneg; reflexivity).
  repeat split; nra.
Qed.

Lemma Length_axis (k : R) : 0 <= k -> Length (mkV2 0 k) = k.
Proof. intros Hk; apply Length_eq; [assumption | unfold Length2; cbn [X Y]; ring]. Qed.

(** X6.  For d > 0, radii that are not negative and |(r_b - r_n)/d| <= 1,
    the flank of the cam built by [NewCam1] starts on the base circle, has
    length sqrt (d^2 - (r_b - r_n)^2), and, when it has a direction u, it
    is tangent to the base circle at its start a and ends, at a + l u, on
    the nose circle, tangent to it. *)
Theorem NewCam1_flank_tangent (d rb rn : R) :
  0 < d -> 0 <= rb -> 0 <= rn -> Rabs ((rb - rn) / d) <= 1 ->
  let s := NewCam1 d rb rn in
  Length (Cam1.a s) = rb
  /\ Cam1.l s = sqrt (d * d - (rb - rn) * (rb - rn))
  /\ (forall u0, Cam1.u s = Some u0 ->
      let b := Add (Cam1.a s) (MulScalar u0 (Cam1.l s)) in
      Length u0 = 1
      /\ Dot (Cam1.a s) u0 = 0
      /\ Length (Sub b (mkV2 0 d)) = rn
      /\ Dot (Sub b (mkV2 0 d)) u0 = 0).
Proof.
  intros Hd Hrb Hrn Hsin s.
  pose proof (flank_unit d rb rn Hsin) as Hunit.
  pose proof (flank_sin_d d rb rn Hd) as Hsd.
  pose proof (NewCam1_l d rb rn Hd Hsin) as Hl.
  pose proof (NewCam1_a d rb rn) as Ha.
  pose proof (flank_cos_nonneg d rb rn) as Hc0.
  fold s in Hl, Ha.
  set (sn := (rb - rn) / d) in *.
  set (cs := sqrt (1 - sn * sn)) in *.
  split; [| split].
  - rewrite Ha; apply Length_eq; [assumption |].
    unfold Length2; cbn [X Y].
    replace (cs * rb * (cs * rb) + sn * rb * (sn * rb))
      with (rb * rb * (cs * cs + sn * sn)) by ring.
    rewrite Hunit; ring.
  - rewrite Hl; symmetry; apply sqrt_lem_1; [| nra |].
    + rewrite <- Hsd. replace (d * d - sn * d * (sn * d))
        with (d * d * (cs * cs + sn * sn - sn * sn)) by (rewrite Hunit; ring).
      nra.
    + rewrite <- Hsd.
      replace (d * cs * (d * cs)) with (d * d * (cs * cs)) by ring.
      replace (cs * cs) with (1 - sn * sn) by lra. ring.
  - intros u0 Hu b.
    destruct (Req_dec_T cs 0) as [Hz | Hnz].
    { pose proof (NewCam1_u_degenerate d rb rn Hd Hsin Hz) as Hn.
      fold s in Hn; congruence. }
    assert (Hc : 0 < cs) by lra.
    pose proof (NewCam1_u d rb rn Hd Hsin Hc) as Hu'.
    fold s in Hu'; fold sn in Hu'; fold cs in Hu'.
    assert (u0 = mkV2 (- sn) cs) by congruence; subst u0.
    unfold b; rewrite Ha, Hl.
    unfold Dot, Sub, Add, MulScalar; cbn [X Y].
    repeat split.
    + apply Length_eq; [lra |]. unfold Length2; cbn [X Y]. lra.
    + ring.
    + apply Length_eq; [assumption |]. unfold Length2; cbn [X Y].
      replace (cs * rb + - sn * (d * cs) - 0) with (cs * (rb - sn * d)) by ring.
      replace (sn * rb + cs * (d * cs) - d)
        with (sn * rb - d * (1 - cs * cs)) by ring.
      replace (1 - cs * cs) with (sn * sn) by lra.
      replace (sn * rb - d * (sn * sn)) with (sn * (rb - sn * d)) by ring.
      rewrite Hsd.
      replace (rb - (rb - rn)) with rn by ring.
      replace (cs * rn * (cs * rn) + sn * rn * (sn * rn))
        with (rn * rn * (cs * cs + sn * sn)) by ring.
      rewrite Hunit; ring.
    + replace ((cs * rb + - sn * (d * cs) - 0) * - sn
               + (sn * rb + cs * (d * cs) - d) * cs)
        with (d * cs * (cs * cs + sn * sn - 1)) by ring.
      rewrite Hunit; ring.
Qed.

Lemma NewCam1_flank_tangent_witness :
  let s := NewCam1 2 1 1 in
  Length (Cam1.a s) = 1
  /\ Cam1.l s = sqrt (2 * 2 - (1 - 1) * (1 - 1))
  /\ (forall u0, Cam1.u s = Some u0 ->
      let b := Add (Cam1.a s) (MulScalar u0 (Cam1.l s)) in
      Length u0 = 1
      /\ Dot (Cam1.a s) u0 = 0
      /\ Length (Sub b (mkV2 0 2)) = 1
      /\ Dot (Sub b (mkV2 0 2)) u0 = 0).
Proof.
  assert (Hsin : Rabs ((1 - 1) / 2) <= 1).
  { replace ((1 - 1) / 2) with 0 by lra; rewrite Rabs_R0; lra. }
  apply (NewCam1_flank_tangent 2 1 1); [lra | lra | lra | exact Hsin].
Defined.

(** X7.  When the two circles touch from inside, |r_b - r_n| = d, the
    flank has length 0 and no direction, and [Evaluate] is the distance to
    the nose circle at every point: the base circle no longer takes
    part. *)
Theorem NewCam1_degenerate (d rb rn : R) (p : V2) :
  0 < d -> Rabs ((rb - rn) / d) = 1 ->
  let s := NewCam1 d rb rn in
  Cam1.l s = 0
  /\ Cam1.u s = None
  /\ Cam1.Evaluate s p
     = Length (Sub (mkV2 (Abs (X p)) (Y p)) (mkV2 0 d)) - rn.
Proof.
  intros Hd Hsin s.
  assert (Hle : Rabs ((rb - rn) / d) <= 1) by lra.
  assert (Hz : sqrt (1 - (rb - rn) / d * ((rb - rn) / d)) = 0).
  { replace (1 - (rb - rn) / d * ((rb - rn) / d)) with 0; [apply sqrt_0 |].
    set (sn := (rb - rn) / d) in *.
    unfold Rabs in Hsin; destruct (Rcase_abs sn); nra. }
  pose proof (NewCam1_u_degenerate d rb rn Hd Hle Hz) as Hu.
  pose proof (NewCam1_l d rb rn Hd Hle) as Hl.
  cbv zeta in Hl; rewrite Hz in Hl.
  split; [unfold s; rewrite Hl; ring |].
  split; [exact Hu |].
  unfold s; rewrite (Cam1_Evaluate_nan _ p Hu); reflexivity.
Qed.

Lemma NewCam1_degenerate_witness :
  let s := NewCam1 1 2 1 in
  Cam1.l s = 0
  /\ Cam1.u s = None
  /\ Cam1.Evaluate s (mkV2 3 0)
     = Length (Sub (mkV2 (Abs 3) 0) (mkV2 0 1)) - 1.
Proof.
  assert (Hsin : Rabs ((2 - 1) / 1) = 1).
  { replace ((2 - 1) / 1) with 1 by lra; apply Rabs_R1. }
  apply (NewCam1_degenerate 1 2 1 (mkV2 3 0)); [lra | exact Hsin].
Defined.

(** ** Cam1: the bounding box *)

(** X8.  For d > 0 and 0 <= r_n <= r_b with r_b - r_n <= d, the bounding
    box of the cam built by [NewCam1] encloses the cam: every point at
    which [Evaluate] is not positive lies in the box. *)
Theorem NewCam1_BoundingBox_encloses (d rb rn : R) (p : V2) :
  0 < d -> 0 <= rn -> rn <= rb -> rb - rn <= d ->
  let s := NewCam1 d rb rn in
  Cam1.Evaluate s p <= 0 ->
  X (Min (Cam1.BoundingBox s)) <= X p <= X (Max_ (Cam1.BoundingBox s))
  /\ Y (Min (Cam1.BoundingBox s)) <= Y p <= Y (Max_ (Cam1.BoundingBox s)).
Proof.
  intros Hd Hrn Hrb Hdd s He.
  cbn [NewCam1 Cam1.BoundingBox Cam1.bb s Min Max_ X Y].
  assert (Hs0 : 0 <= (rb - rn) / d)
    by (unfold Rdiv; apply Rmult_le_pos; [lra | left; apply Rinv_0_lt_compat; lra]).
  assert (Hs1 : (rb - rn) / d <= 1).
  { apply Rmult_le_reg_r with d; [assumption |].
    replace ((rb - rn) / d * d) with (rb - rn) by (field; lra). lra. }
  assert (Hsin : Rabs ((rb - rn) / d) <= 1) by (rewrite Rabs_pos_eq; assumption).
  pose proof (flank_unit d rb rn Hsin) as Hunit.
  pose proof (flank_sin_d d rb rn Hd) as Hsd.
  pose proof (NewCam1_l d rb rn Hd Hsin) as Hl.
  pose proof (NewCam1_a d rb rn) as Ha.
  pose proof (flank_cos_nonneg d rb rn) as Hc0.
  fold s in Hl, Ha.
  set (sn := (rb - rn) / d) in *.
  set (cs := sqrt (1 - sn * sn)) in *.
  assert (Hc1 : cs <= 1) by nra.
  pose proof (Rabs_pos (X p)) as Hx0.
  assert (Hbox : forall r, Rabs (X p) <= r -> - r <= X p <= r).
  { intros r Hr; unfold Rabs in *; destruct (Rcase_abs (X p)); lra. }
  assert (Hnose : Cam1.nose_value s (Cam1.mirror p) <= 0 ->
                  (- rb <= X p <= rb) /\ (- rb <= Y p <= d + rn)).
  { unfold Cam1.nose_value, Cam1.mirror, Abs.
    cbn [NewCam1 Cam1.distance Cam1.nose_radius s]; intros Hn.
    destruct (Length_components (Sub (mkV2 (Rabs (X p)) (Y p)) (mkV2 0 d)) rn)
      as [Hx Hy]; [lra |].
    cbn [Sub X Y] in Hx, Hy.
    split; [apply Hbox; lra | lra]. }
  destruct (Req_dec_T cs 0) as [Hz | Hnz].
  { pose proof (NewCam1_u_degenerate d rb rn Hd Hsin Hz) as Hu.
    fold s in Hu. rewrite (Cam1_Evaluate_nan s p Hu) in He. exact (Hnose He). }
  assert (Hc : 0 < cs) by lra.
  pose proof (NewCam1_u d rb rn Hd Hsin Hc) as Hu.
  fold s in Hu; fold sn in Hu; fold cs in Hu.
  destruct (Cam1_Evaluate_cases s p (mkV2 (- sn) cs) Hu) as (Hb1 & Hb2 & Hb3);
    [rewrite Hl; nra |].
  set (x0 := Rabs (X p)) in *; set (y := Y p) in *.
  assert (Ht : Dot (Sub (Cam1.mirror p) (Cam1.a s)) (mkV2 (- sn) cs)
               = - sn * x0 + cs * y).
  { unfold Dot, Sub, Cam1.mirror, Abs; rewrite Ha; cbn [X Y]; fold x0 y; ring. }
  rewrite Ht in Hb1, Hb2, Hb3; rewrite Hl in Hb2, Hb3.
  set (t := - sn * x0 + cs * y) in *.
  destruct (Rlt_dec t 0) as [Hneg | Hpos].
  - (* the base circle *)
    rewrite (Hb1 Hneg) in He.
    unfold Cam1.base_value, Cam1.mirror, Abs in He.
    cbn [NewCam1 Cam1.base_radius s] in He.
    destruct (Length_components (mkV2 (Rabs (X p)) (Y p)) rb) as [Hx Hy]; [lra |].
    cbn [X Y] in Hx, Hy; fold x0 in Hx; fold y in Hy.
    split; [apply Hbox; lra | lra].
  - destruct (Rle_dec t (d * cs)) as [Hin | Hout].
    + (* the flank line *)
      rewrite Hb2 in He by lra.
      assert (Hk : Cam1.flank_value s (mkV2 (- sn) cs) (Cam1.mirror p)
                   = cs * x0 + sn * y - rb).
      { unfold Cam1.flank_value, Dot, Sub, Cam1.mirror, Abs; rewrite Ha.
        cbn [X Y]; fold x0 y.
        replace ((x0 - cs * rb) * cs + (y - sn * rb) * - - sn)
          with (cs * x0 + sn * y - rb * (cs * cs + sn * sn)) by ring.
        rewrite Hunit; ring. }
      rewrite Hk in He.
      set (k := cs * x0 + sn * y - rb) in *.
      assert (Hxe : x0 = cs * (k + rb) - sn * t).
      { unfold k, t.
        replace (cs * (cs * x0 + sn * y - rb + rb) - sn * (- sn * x0 + cs * y))
          with ((cs * cs + sn * sn) * x0) by ring.
        rewrite Hunit; ring. }
      assert (Hye : y = sn * (k + rb) + cs * t).
      { unfold k, t.
        replace (sn * (cs * x0 + sn * y - rb + rb) + cs * (- sn * x0 + cs * y))
          with ((cs * cs + sn * sn) * y) by ring.
        rewrite Hunit; ring. }
      assert (Ht0 : 0 <= t) by lra.
      assert (Hst : 0 <= sn * t) by (apply Rmult_le_pos; assumption).
      assert (Hkr : 0 <= k + rb).
      { destruct (Rle_dec 0 (k + rb)) as [|n]; [assumption |].
        exfalso; assert (cs * (k + rb) < 0) by nra; lra. }
      assert (Hx : x0 <= rb) by nra.
      assert (Hy0 : 0 <= y).
      { rewrite Hye. apply Rplus_le_le_0_compat; apply Rmult_le_pos; assumption. }
      assert (Hy1 : y <= d + rn).
      { assert (Ha1 : sn * (k + rb) <= sn * rb) by nra.
        assert (Ha2 : cs * t <= cs * (d * cs)) by nra.
        assert (Ha3 : sn * rb + cs * (d * cs) = d + sn * rn).
        { replace (cs * (d * cs)) with (d * (cs * cs)) by ring.
          replace (cs * cs) with (1 - sn * sn) by lra.
          replace (sn * rb + d * (1 - sn * sn)) with (d + sn * (rb - sn * d)) by ring.
          rewrite Hsd; ring. }
        assert (Ha4 : sn * rn <= rn) by nra.
        lra. }
      split; [apply Hbox; exact Hx | lra].
    + (* the nose circle *)
      rewrite Hb3 in He by lra. exact (Hnose He).
Qed.

Lemma NewCam1_BoundingBox_encloses_witness :
  let s := NewCam1 2 1 1 in
  X (Min (Cam1.BoundingBox s)) <= 0 <= X (Max_ (Cam1.BoundingBox s))
  /\ Y (Min (Cam1.BoundingBox s)) <= 0 <= Y (Max_ (Cam1.BoundingBox s)).
Proof.
  assert (He : Cam1.Evaluate (NewCam1 2 1 1) (mkV2 0 0) <= 0).
  { destruct (Cam1_Evaluate_cases (NewCam1 2 1 1) (mkV2 0 0) (mkV2 0 1)
                NewCam1_2_1_1_u (Length_nonneg _)) as (_ & H & _).
    assert (Ht : Dot (Sub (Cam1.mirror (mkV2 0 0)) (Cam1.a (NewCam1 2 1 1)))
                   (mkV2 0 1) = 0).
    { unfold Dot, Sub, Cam1.mirror; cbn [NewCam1 Cam1.a MulScalar X Y]; lra. }
    rewrite H by (rewrite Ht; split; [lra | apply Length_nonneg]).
    unfold Cam1.flank_value, Dot, Sub, Cam1.mirror, Abs.
    cbn [NewCam1 Cam1.a MulScalar X Y].
    rewrite Rabs_R0.
    replace ((1 - 1) / 2) with 0 by lra.
    replace (1 - 0 * 0) with 1 by ring; rewrite sqrt_1; lra. }
  exact (NewCam1_BoundingBox_encloses 2 1 1 (mkV2 0 0)
           ltac:(lra) ltac:(lra) ltac:(lra) ltac:(lra) He).
Defined.

(** X9.  The box takes its width from the base circle alone: when the
    nose radius is larger than the base radius, the point (r_n, d) of the
    nose circle lies on the cam ([Evaluate] is 0 there) but to the right of
    the bounding box. *)
Theorem NewCam1_BoundingBox_large_nose (d rb rn : R) :
  0 < d -> 0 <= rb -> rb < rn -> rn - rb <= d ->
  let s := NewCam1 d rb rn in
  Cam1.Evaluate s (mkV2 rn d) = 0
  /\ X (Max_ (Cam1.BoundingBox s)) < rn.
Proof.
  intros Hd Hrb Hrn Hdd s.
  split; [| cbn [NewCam1 Cam1.BoundingBox Cam1.bb s Max_ X]; exact Hrn].
  assert (Hs0 : (rb - rn) / d < 0).
  { unfold Rdiv. assert (0 < / d) by (apply Rinv_0_lt_compat; lra). nra. }
  assert (Hs1 : -1 <= (rb - rn) / d).
  { apply Rmult_le_reg_r with d; [assumption |].
    replace ((rb - rn) / d * d) with (rb - rn) by (field; lra). lra. }
  assert (Hsin : Rabs ((rb - rn) / d) <= 1) by (apply Rabs_le; lra).
  pose proof (NewCam1_l d rb rn Hd Hsin) as Hl.
  pose proof (NewCam1_a d rb rn) as Ha.
  pose proof (flank_cos_nonneg d rb rn) as Hc0.
  fold s in Hl, Ha.
  set (sn := (rb - rn) / d) in *.
  set (cs := sqrt (1 - sn * sn)) in *.
  assert (Hnose : Cam1.nose_value s (Cam1.mirror (mkV2 rn d)) = 0).
  { unfold Cam1.nose_value, Cam1.mirror, Abs, Sub.
    cbn [NewCam1 Cam1.distance Cam1.nose_radius s X Y].
    rewrite Rabs_pos_eq by lra.
    rewrite (Length_eq _ rn); [ring | lra |].
    unfold Length2; cbn [X Y]; ring. }
  destruct (Req_dec_T cs 0) as [Hz | Hnz].
  { pose proof (NewCam1_u_degenerate d rb rn Hd Hsin Hz) as Hu.
    fold s in Hu. rewrite (Cam1_Evaluate_nan s _ Hu). exact Hnose. }
  assert (Hc : 0 < cs) by lra.
  pose proof (NewCam1_u d rb rn Hd Hsin Hc) as Hu.
  fold s in Hu; fold sn in Hu; fold cs in Hu.
  destruct (Cam1_Evaluate_cases s (mkV2 rn d) (mkV2 (- sn) cs) Hu)
    as (_ & _ & Hb3); [rewrite Hl; nra |].
  rewrite Hb3; [exact Hnose |].
  rewrite Hl; unfold Dot, Sub, Cam1.mirror, Abs; rewrite Ha; cbn [X Y].
  rewrite Rabs_pos_eq by lra.
  assert (0 < - sn * rn) by nra. nra.
Qed.

Lemma NewCam1_BoundingBox_large_nose_witness :
  let s := NewCam1 4 1 2 in
  Cam1.Evaluate s (mkV2 2 4) = 0
  /\ X (Max_ (Cam1.BoundingBox s)) < 2.
Proof. apply (NewCam1_BoundingBox_large_nose 4 1 2); lra. Defined.

(** ** Cam1: the ends of the axis of symmetry *)

(** A cam with a flank of positive length passes through the top of the
    nose circle and through the bottom of the base circle. *)
Lemma Cam1_axis_points (d rb rn : R) :
  0 < d -> 0 <= rb -> 0 <= rn -> Rabs ((rb - rn) / d) < 1 ->
  let s := NewCam1 d rb rn in
  Cam1.Evaluate s (mkV2 0 (d + rn)) = 0
  /\ Cam1.Evaluate s (mkV2 0 (- rb)) = 0.
Proof.
  intros Hd Hrb Hrn Hlt s.
  assert (Hsin : Rabs ((rb - rn) / d) <= 1) by lra.
  pose proof (flank_unit d rb rn Hsin) as Hunit.
  pose proof (flank_sin_d d rb rn Hd) as Hsd.
  pose proof (NewCam1_l d rb rn Hd Hsin) as Hl.
  pose proof (NewCam1_a d rb rn) as Ha.
  pose proof (flank_cos_nonneg d rb rn) as Hc0.
  fold s in Hl, Ha.
  set (sn := (rb - rn) / d) in *.
  set (cs := sqrt (1 - sn * sn)) in *.
  assert (Hc : 0 < cs).
  { destruct (Req_dec_T cs 0) as [Hz | Hnz]; [| lra].
    exfalso. assert (Hs2 : sn * sn = 1) by nra.
    unfold Rabs in Hlt; destruct (Rcase_abs sn); nra. }
  pose proof (NewCam1_u d rb rn Hd Hsin Hc) as Hu.
  fold s in Hu; fold sn in Hu; fold cs in Hu.
  assert (Hcases : forall y, let t := cs * y in
            (t < 0 -> Cam1.Evaluate s (mkV2 0 y) = Length (mkV2 0 y) - rb)
            /\ (0 <= t <= d * cs -> Cam1.Evaluate s (mkV2 0 y) = sn * y - rb)
            /\ (d * cs < t ->
                Cam1.Evaluate s (mkV2 0 y) = Length (mkV2 0 (y - d)) - rn)).
  { intros y t.
    destruct (Cam1_Evaluate_cases s (mkV2 0 y) (mkV2 (- sn) cs) Hu)
      as (H1 & H2 & H3); [rewrite Hl; nra |].
    assert (Ht : Dot (Sub (Cam1.mirror (mkV2 0 y)) (Cam1.a s)) (mkV2 (- sn) cs) = t).
    { unfold t, Dot, Sub, Cam1.mirror, Abs; rewrite Ha; cbn [X Y].
      rewrite Rabs_R0; ring. }
    rewrite Ht in H1, H2, H3; rewrite Hl in H2, H3.
    repeat split; intros Hy.
    - rewrite (H1 Hy). unfold Cam1.base_value, Cam1.mirror, Abs; cbn [X Y].
      rewrite Rabs_R0. reflexivity.
    - rewrite (H2 Hy).
      unfold Cam1.flank_value, Dot, Sub, Cam1.mirror, Abs; rewrite Ha; cbn [X Y].
      rewrite Rabs_R0.
      replace ((0 - cs * rb) * cs + (y - sn * rb) * - - sn)
        with (sn * y - rb * (cs * cs + sn * sn)) by ring.
      rewrite Hunit; ring.
    - rewrite (H3 Hy). unfold Cam1.nose_value, Cam1.mirror, Abs, Sub; cbn [X Y].
      rewrite Rabs_R0. cbn [NewCam1 Cam1.distance Cam1.nose_radius s].
      replace (0 - 0) with 0 by ring. reflexivity. }
  split.
  - destruct (Hcases (d + rn)) as (_ & H2 & H3).
    destruct (Rle_dec (cs * (d + rn)) (d * cs)) as [Hle | Hgt].
    + assert (rn = 0) by nra; subst rn.
      rewrite H2 by nra. nra.
    + rewrite H3 by lra.
      replace (d + rn - d) with rn by ring.
      rewrite Length_axis by assumption; ring.
  - destruct (Hcases (- rb)) as (H1 & H2 & _).
    destruct (Rlt_dec (cs * - rb) 0) as [Hlt0 | Hge].
    + rewrite H1 by assumption.
      rewrite (Length_eq _ rb); [ring | assumption |].
      unfold Length2; cbn [X Y]; ring.
    + assert (rb = 0) by nra; subst rb.
      rewrite H2 by nra. ring.
Qed.

Lemma derived_ratio (lift duration max_diameter : R) :
  0 < lift -> 0 < duration < PI ->
  (derived_base_radius lift max_diameter
   - derived_nose_radius lift duration max_diameter)
  / derived_distance lift duration max_diameter
  = cos (duration / 2)
  /\ 0 < derived_distance lift duration max_diameter
  /\ derived_nose_radius lift duration max_diameter
     < derived_base_radius lift max_diameter.
Proof.
  intros Hl Hd.
  pose proof (cos_half_duration duration Hd) as Hc.
  unfold derived_distance, derived_nose_radius.
  set (c := cos (duration / 2)) in *.
  set (b := derived_base_radius lift max_diameter).
  assert (Hi : 0 < / (1 - c)) by (apply Rinv_0_lt_compat; lra).
  assert (Hq : 0 < lift * c / (1 - c)).
  { unfold Rdiv; apply Rmult_lt_0_compat; [nra | assumption]. }
  repeat split; [field; lra | lra | lra].
Qed.

(** X10.  A cam returned by [MakeCam] has 0 < nose_radius < base_radius
    and a positive center distance; it passes through (0, -base_radius)
    and through (0, base_radius + lift), so a follower on the axis is
    lifted by exactly [lift]; and the top of its bounding box is at
    max_diameter / 2. *)
Theorem MakeCam_follower_lift (cam_type : string)
    (lift duration max_diameter : R) (s : Cam1.t) :
  MakeCam cam_type lift duration max_diameter = (Some s, None) ->
  let base_radius := max_diameter / 2 - lift in
  Cam1.base_radius s = base_radius
  /\ 0 < Cam1.nose_radius s < Cam1.base_radius s
  /\ 0 < Cam1.distance s
  /\ Cam1.Evaluate s (mkV2 0 (- base_radius)) = 0
  /\ Cam1.Evaluate s (mkV2 0 (base_radius + lift)) = 0
  /\ Y (Max_ (Cam1.BoundingBox s)) = max_diameter / 2.
Proof.
  intros Hmk base_radius.
  destruct (MakeCam_cases cam_type lift duration max_diameter)
    as [H|[H|[H|[H|[H|[H|[H|H]]]]]]];
    repeat match goal with H : _ /\ _ |- _ => destruct H end;
    try congruence.
  match goal with H : MakeCam _ _ _ _ = (Some _, None) |- _ =>
    rewrite H in Hmk end.
  injection Hmk as Hs.
  match goal with H : arguments_ok _ _ _ |- _ =>
    destruct H as (Hm & Hl & Hd & Hb) end.
  destruct (derived_ratio lift duration max_diameter Hl Hd) as (Hr & Hdist & Hlt).
  pose proof (cos_half_duration duration Hd) as Hc.
  set (dist := derived_distance lift duration max_diameter) in *.
  set (nr := derived_nose_radius lift duration max_diameter) in *.
  change (derived_base_radius lift max_diameter) with base_radius in *.
  assert (Hsum : dist + nr = base_radius + lift) by (unfold dist, derived_distance; fold nr; change (derived_base_radius lift max_diameter) with base_radius; ring).
  assert (Habs : Rabs ((base_radius - nr) / dist) < 1)
    by (rewrite Hr, Rabs_pos_eq; lra).
  destruct (Cam1_axis_points dist base_radius nr) as [Htop Hbot]; try lra.
  subst s; cbn [NewCam1 Cam1.base_radius Cam1.nose_radius Cam1.distance
                  Cam1.BoundingBox Cam1.bb Max_ Y].
  repeat split; try lra; try assumption.
  - rewrite <- Hsum; exact Htop.
  - unfold base_radius in Hsum |- *; lra.
Qed.

Lemma derived_nose_radius_1_PI3_20 : 0 < derived_nose_radius 1 (PI / 3) 20.
Proof.
  pose proof sqrt3_bounds as Hs.
  unfold derived_nose_radius, derived_base_radius; rewrite cos_PI3_half.
  assert (Hi : 0 < / (1 - sqrt 3 / 2)) by (apply Rinv_0_lt_compat; lra).
  assert (Hm : (1 - sqrt 3 / 2) * / (1 - sqrt 3 / 2) = 1) by (apply Rinv_r; lra).
  unfold Rdiv at 2. nra.
Qed.

Lemma MakeCam_1_PI3_20 :
  MakeCam "flat_flank" 1 (PI / 3) 20
  = (Some (NewCam1 (derived_distance 1 (PI / 3) 20) (derived_base_radius 1 20)
             (derived_nose_radius 1 (PI / 3) 20)), None).
Proof.
  apply MakeCam_flat_flank_ok; [| exact derived_nose_radius_1_PI3_20].
  pose proof PI_RGT_0.
  unfold arguments_ok, derived_base_radius; repeat split; lra.
Qed.

Lemma MakeCam_follower_lift_witness :
  let s := NewCam1 (derived_distance 1 (PI / 3) 20) (derived_base_radius 1 20)
             (derived_nose_radius 1 (PI / 3) 20) in
  Cam1.base_radius s = 20 / 2 - 1
  /\ 0 < Cam1.nose_radius s < Cam1.base_radius s
  /\ 0 < Cam1.distance s
  /\ Cam1.Evaluate s (mkV2 0 (- (20 / 2 - 1))) = 0
  /\ Cam1.Evaluate s (mkV2 0 (20 / 2 - 1 + 1)) = 0
  /\ Y (Max_ (Cam1.BoundingBox s)) = 20 / 2.
Proof.
  exact (MakeCam_follower_lift "flat_flank" 1 (PI / 3) 20 _ MakeCam_1_PI3_20).
Defined.

(** X13.  For a positive maximum diameter and a duration in (0, PI),
    [MakeCam] returns a flat flank cam exactly when
    0 < lift < (max_diameter / 2) (1 - cos (duration / 2)). *)
Theorem MakeCam_flat_flank_lift_range (lift duration max_diameter : R) :
  0 < max_diameter -> 0 < duration < PI ->
  (exists s, MakeCam "flat_flank" lift duration max_diameter = (Some s, None))
  <-> 0 < lift < max_diameter / 2 * (1 - cos (duration / 2)).
Proof.
  intros Hm Hd.
  pose proof (cos_half_duration duration Hd) as Hc.
  assert (Hi : 0 < / (1 - cos (duration / 2))) by (apply Rinv_0_lt_compat; lra).
  assert (Hn : 0 < lift ->
               (0 < derived_nose_radius lift duration max_diameter
                <-> lift < max_diameter / 2 * (1 - cos (duration / 2)))).
  { intros Hl. unfold derived_nose_radius, derived_base_radius.
    set (c := cos (duration / 2)) in *.
    assert (He : max_diameter / 2 - lift - lift * c / (1 - c)
                 = (max_diameter / 2 * (1 - c) - lift) * / (1 - c))
      by (field; lra).
    rewrite He; split; intros H; [| apply Rmult_lt_0_compat; lra].
    destruct (Rlt_dec lift (max_diameter / 2 * (1 - c))) as [|n]; [assumption |].
    exfalso. assert ((max_diameter / 2 * (1 - c) - lift) * / (1 - c) <= 0); [| lra].
    assert (0 <= (lift - max_diameter / 2 * (1 - c)) * / (1 - c))
      by (apply Rmult_le_pos; lra). lra. }
  split.
  - intros [s Hs].
    destruct (MakeCam_cases "flat_flank" lift duration max_diameter)
      as [H|[H|[H|[H|[H|[H|[H|H]]]]]]];
      repeat match goal with H : _ /\ _ |- _ => destruct H end;
      try congruence.
    match goal with H : arguments_ok _ _ _ |- _ =>
      destruct H as (_ & Hl & _ & _) end.
    split; [assumption | apply Hn; assumption].
  - intros [Hl Hu]. eexists.
    apply MakeCam_flat_flank_ok; [| apply Hn; assumption].
    unfold arguments_ok, derived_base_radius; repeat split; try lra.
    nra.
Qed.

Lemma MakeCam_flat_flank_lift_range_witness :
  (exists s, MakeCam "flat_flank" 1 (PI / 3) 20 = (Some s, None))
  <-> 0 < 1 < 20 / 2 * (1 - cos (PI / 3 / 2)).
Proof.
  assert (Hpi : 0 < PI / 3 < PI) by (pose proof PI_RGT_0; lra).
  exact (MakeCam_flat_flank_lift_range 1 (PI / 3) 20 ltac:(lra) Hpi).
Defined.

(** ** Cam2: the flank center *)

(** X11.  For d <> 0 and radii for which the square root in [NewCam2] is
    real, the flank center lies on or left of the y axis, at distance
    |r_f - r_b| from the center of the base circle and |r_f - r_n| from
    the center of the nose circle: the flank circle touches both. *)
Theorem NewCam2_flank_center_tangent (d rb rn rf : R) :
  d <> 0 ->
  let s := NewCam2 d rb rn rf in
  let c := Cam2.flank_center s in
  Y c * Y c <= (rf - rb) * (rf - rb) ->
  X c <= 0
  /\ Length c = Rabs (rf - rb)
  /\ Length (Sub (mkV2 0 d) c) = Rabs (rf - rn).
Proof.
  intros Hd s c Hy.
  unfold c, s in *; cbn [NewCam2 Cam2.flank_center X Y] in *.
  set (r0 := rf - rb) in *; set (r1 := rf - rn) in *.
  set (y := (r0 * r0 - r1 * r1 + d * d) / (2 * d)) in *.
  set (x := sqrt (r0 * r0 - y * y)).
  assert (Hx0 : 0 <= x) by apply sqrt_pos.
  assert (Hxx : x * x = r0 * r0 - y * y) by (apply sqrt_sqrt; lra).
  assert (Hyd : 2 * d * y = r0 * r0 - r1 * r1 + d * d) by (unfold y; field; assumption).
  assert (Habs : forall r, Rabs r * Rabs r = r * r).
  { intros r; unfold Rabs; destruct (Rcase_abs r); ring. }
  split; [lra |].
  split; apply Length_eq; try apply Rabs_pos; rewrite Habs;
    unfold Length2, Sub; cbn [X Y]; nra.
Qed.

Lemma NewCam2_flank_center_tangent_witness :
  let c := Cam2.flank_center (NewCam2 4 3 1 6) in
  X c <= 0
  /\ Length c = Rabs (6 - 3)
  /\ Length (Sub (mkV2 0 4) c) = Rabs (6 - 1).
Proof.
  assert (Hy : Y (Cam2.flank_center (NewCam2 4 3 1 6))
               * Y (Cam2.flank_center (NewCam2 4 3 1 6)) <= (6 - 3) * (6 - 3)).
  { rewrite NewCam2_4_3_1_6_center; cbn [Y]; lra. }
  exact (NewCam2_flank_center_tangent 4 3 1 6 ltac:(lra) Hy).
Defined.

(** ** The gear rack: extent *)

(** X12.  A point belongs to the rack built by [NewGearRack] exactly when
    its fold belongs to the tooth polygon and its x lies within the half
    length on either side; so the rack never reaches beyond the x range of
    its bounding box, whatever the tooth. *)
Theorem GearRack_extent
    (number_teeth gear_module pressure_angle backlash base_height : R)
    (p : V2) :
  let s := NewGearRack number_teeth gear_module pressure_angle backlash
             base_height in
  (GearRack.Evaluate s p <= 0
   <-> GearRack.tooth_value s p <= 0
       /\ - GearRack.length s <= X p <= GearRack.length s)
  /\ (GearRack.Evaluate s p <= 0 ->
      X (Min (GearRack.BoundingBox s)) <= X p <= X (Max_ (GearRack.BoundingBox s))).
Proof.
  intros s.
  assert (Hiff : GearRack.Evaluate s p <= 0
                 <-> GearRack.tooth_value s p <= 0
                     /\ - GearRack.length s <= X p <= GearRack.length s).
  { rewrite GearRack_Evaluate_unfold; unfold Max, Abs.
    set (d0 := GearRack.tooth_value s p); set (L := GearRack.length s).
    split.
    - intros H.
      pose proof (Rmax_l d0 (Rabs (X p) - L)) as H1.
      pose proof (Rmax_r d0 (Rabs (X p) - L)) as H2.
      split; [lra |].
      unfold Rabs in *; destruct (Rcase_abs (X p)); lra.
    - intros [H0 Hx]. apply Rmax_lub; [assumption |].
      unfold Rabs; destruct (Rcase_abs (X p)); lra. }
  split; [exact Hiff |].
  intros H; apply Hiff in H as [_ Hx].
  cbn [NewGearRack GearRack.BoundingBox GearRack.bb s Min Max_ X].
  cbn [NewGearRack GearRack.length s] in Hx. exact Hx.
Qed.

(** ** The involute gear *)

Lemma InvoluteGearTooth_vertices_length (number_teeth : Z)
    (gear_module root_radius base_radius outer_radius backlash : R)
    (facets : Z) :
  (0 <= facets)%Z ->
  length (InvoluteGearTooth_vertices number_teeth gear_module root_radius
            base_radius outer_radius backlash facets)
  = Z.to_nat (2 * (facets + 1) + 1).
Proof.
  intros Hf; unfold InvoluteGearTooth_vertices.
  rewrite length_insert.
  set (n := Z.to_nat facets).
  assert (Hn1 : Z.to_nat (facets + 1) = (n + 1)%nat) by (unfold n; lia).
  rewrite Hn1.
  match goal with |- context [upper_face n (n + 1) 0 ?v1] =>
    destruct (upper_face_spec n (n + 1) 0 v1) as (Hl & _);
      [lia | rewrite lower_face_length, length_replicate; unfold n; lia |];
      rewrite Hl
  end.
  rewrite lower_face_length, length_replicate; reflexivity.
Qed.

(** X14.  For at least one tooth, a positive module, a pressure angle
    with positive cosine, a clearance that is not negative and
    facets >= 1, [InvoluteGear] is the difference of the union of the
    replicated tooth and the root disc with the ring disc, replicated
    number_teeth times at steps of TAU / number_teeth; the tooth has
    2 (facets + 1) + 1 vertices, and its flank runs from
    max(base_radius, root_radius) out to pitch_radius + gear_module,
    which is 2 gear_module + clearance above the root disc. *)
Theorem InvoluteGear_tooth (number_teeth : Z)
    (gear_module pressure_angle backlash clearance ring_width : R)
    (facets : Z) :
  (1 <= number_teeth)%Z -> 0 < gear_module -> 0 < cos pressure_angle ->
  0 <= clearance -> (1 <= facets)%Z ->
  let pitch_radius := IZR number_teeth * gear_module / 2 in
  let base_radius := pitch_radius * cos pressure_angle in
  let root_radius := pitch_radius - (gear_module + clearance) in
  let outer_radius := pitch_radius + gear_module in
  exists tooth : PolySDF2.t,
    InvoluteGear number_teeth gear_module pressure_angle backlash clearance
      ring_width facets
    = NewDifferenceSDF2
        (NewUnionSDF2
           (NewRotateSDF2 (PolyProfile tooth) number_teeth
              (Rotate2d (TAU / IZR number_teeth)))
           (NewCircleSDF2 root_radius))
        (NewCircleSDF2 (root_radius - ring_width))
    /\ Z.of_nat (length (PolySDF2.vertex tooth)) = (2 * (facets + 1) + 1)%Z
    /\ (exists p, PolySDF2.vertex tooth !! 0%nat = Some p
                  /\ Length p = Max base_radius root_radius)
    /\ (exists p, PolySDF2.vertex tooth !! Z.to_nat facets = Some p
                  /\ Length p = outer_radius)
    /\ 0 < base_radius <= pitch_radius
    /\ outer_radius - root_radius = 2 * gear_module + clearance.
Proof.
  intros Hn Hm Hc Hcl Hf pitch_radius base_radius root_radius outer_radius.
  assert (Hn' : 1 <= IZR number_teeth) by (apply IZR_le in Hn; exact Hn).
  assert (Hp : 0 < pitch_radius) by (unfold pitch_radius; nra).
  assert (Hc1 : cos pressure_angle <= 1) by apply COS_bound.
  assert (Hb : 0 < base_radius <= pitch_radius) by (unfold base_radius; nra).
  assert (Ho : Max base_radius root_radius <= outer_radius).
  { unfold Max; apply Rmax_lub; unfold outer_radius, root_radius; lra. }
  unfold InvoluteGear.
  replace (gear_module * 1) with gear_module by ring.
  fold pitch_radius; fold base_radius; fold root_radius; fold outer_radius.
  eexists; split; [reflexivity |].
  unfold InvoluteGearTooth, NewPolySDF2; cbn [PolySDF2.vertex].
  destruct (InvoluteGearTooth_vertices_radii number_teeth gear_module
              root_radius base_radius outer_radius backlash facets Hf
              (proj1 Hb) (proj2 Hb) Ho) as (H0 & Hlast & _).
  split; [rewrite InvoluteGearTooth_vertices_length by lia; lia |].
  split; [exact H0 |].
  split; [exact Hlast |].
  split; [exact Hb | unfold outer_radius, root_radius; ring].
Qed.

Lemma InvoluteGear_tooth_witness :
  exists tooth : PolySDF2.t,
    InvoluteGear 20 2 0 0 0 5 3
    = NewDifferenceSDF2
        (NewUnionSDF2
           (NewRotateSDF2 (PolyProfile tooth) 20 (Rotate2d (TAU / 20)))
           (NewCircleSDF2 (20 * 2 / 2 - (2 + 0))))
        (NewCircleSDF2 (20 * 2 / 2 - (2 + 0) - 5))
    /\ Z.of_nat (length (PolySDF2.vertex tooth)) = 9%Z
    /\ (exists p, PolySDF2.vertex tooth !! 0%nat = Some p
                  /\ Length p = Max (20 * 2 / 2 * cos 0) (20 * 2 / 2 - (2 + 0)))
    /\ (exists p, PolySDF2.vertex tooth !! 3%nat = Some p
                  /\ Length p = 20 * 2 / 2 + 2)
    /\ 0 < 20 * 2 / 2 * cos 0 <= 20 * 2 / 2
    /\ 20 * 2 / 2 + 2 - (20 * 2 / 2 - (2 + 0)) = 2 * 2 + 0.
Proof.
  apply (InvoluteGear_tooth 20 2 0 0 0 5 3);
    [lia | lra | rewrite cos_0; lra | lra | lia].
Defined.
